(** * The string-hash matching engine (package expr, [stringLookup])

    A shallow embedding of the hashed equality/inequality matching engine:
    [Add], [Remove], [Search], [equalitySearch], [inequalitySearch], [hash]
    and the two phases of [Match], followed by the properties of the engine
    that the specification states.

    Go maps are finite maps ([gmap]), the set [vars] is a [gset], slices are
    lists.  Mutating methods return the state they leave behind, together
    with the error they return ([None] is Go's [nil]). *)

From Stdlib Require Import ZArith Ascii String.
From stdpp Require Import base gmap list strings.

Local Open Scope Z_scope.

(** ** xxhash.Sum64String and strconv.FormatUint *)

(** The 64-bit digest [hash] calls, github.com/cespare/xxhash/v2: XXH64
    with seed 0 over the bytes of the string.  A uint64 is a [Z] reduced
    modulo [2^64] after every operation that can overflow. *)
Module xxhash.

Definition u64 (z : Z) : Z := z mod 2 ^ 64.

Definition prime1 : Z := 11400714785074694791.
Definition prime2 : Z := 14029467366897019727.
Definition prime3 : Z := 1609587929392839161.
Definition prime4 : Z := 9650029242287828579.
Definition prime5 : Z := 2870177450012600261.

Definition rol (x r : Z) : Z :=
  u64 (Z.lor (Z.shiftl x r) (Z.shiftr x (64 - r))).

Definition round (acc input : Z) : Z :=
  u64 (rol (u64 (acc + input * prime2)) 31 * prime1).

Definition mergeRound (acc val : Z) : Z :=
  u64 (Z.lxor acc (round 0 val) * prime1 + prime4).

(** Little-endian value of a run of bytes. *)
Fixpoint le (b : list Z) : Z :=
  match b with
  | [] => 0
  | x :: r => x + 256 * le r
  end.

Definition bytes (s : string) : list Z :=
  (λ a, Z.of_N (Ascii.N_of_ascii a)) <$> String.list_ascii_of_string s.

(** The 32-byte stripes; [fuel] bounds the number of stripes and
    [length b] is always enough. *)
Fixpoint blocks (fuel : nat) (b : list Z) (v : Z * Z * Z * Z)
  : list Z * (Z * Z * Z * Z) :=
  match fuel with
  | O => (b, v)
  | S fuel' =>
      if decide (32 ≤ length b)%nat then
        let '(v1, v2, v3, v4) := v in
        blocks fuel' (drop 32 b)
          (round v1 (le (take 8 b)),
           round v2 (le (take 8 (drop 8 b))),
           round v3 (le (take 8 (drop 16 b))),
           round v4 (le (take 8 (drop 24 b))))
      else (b, v)
  end.

Fixpoint tail8 (fuel : nat) (b : list Z) (h : Z) : list Z * Z :=
  match fuel with
  | O => (b, h)
  | S fuel' =>
      if decide (8 ≤ length b)%nat then
        tail8 fuel' (drop 8 b)
          (u64 (rol (Z.lxor h (round 0 (le (take 8 b)))) 27 * prime1 + prime4))
      else (b, h)
  end.

Definition tail4 (b : list Z) (h : Z) : list Z * Z :=
  if decide (4 ≤ length b)%nat then
    (drop 4 b,
     u64 (rol (Z.lxor h (u64 (le (take 4 b) * prime1))) 23 * prime2 + prime3))
  else (b, h).

Fixpoint tail1 (b : list Z) (h : Z) : Z :=
  match b with
  | [] => h
  | x :: r => tail1 r (u64 (rol (Z.lxor h (u64 (x * prime5))) 11 * prime1))
  end.

Definition avalanche (h : Z) : Z :=
  let h := u64 (Z.lxor h (Z.shiftr h 33) * prime2) in
  let h := u64 (Z.lxor h (Z.shiftr h 29) * prime3) in
  Z.lxor h (Z.shiftr h 32).

Definition Sum64 (b : list Z) : Z :=
  let n := Z.of_nat (length b) in
  let '(b, h) :=
    if decide (32 ≤ length b)%nat then
      let '(b', (v1, v2, v3, v4)) :=
        blocks (length b) b
          (u64 (prime1 + prime2), prime2, 0, u64 (0 - prime1)) in
      let h := u64 (rol v1 1 + rol v2 7 + rol v3 12 + rol v4 18) in
      (b', mergeRound (mergeRound (mergeRound (mergeRound h v1) v2) v3) v4)
    else (b, prime5) in
  let h := u64 (h + n) in
  let '(b, h) := tail8 (length b) b h in
  let '(b, h) := tail4 b h in
  avalanche (tail1 b h).

Definition Sum64String (s : string) : Z := Sum64 (bytes s).

End xxhash.

Module strconv.

Definition digits : string := "0123456789abcdefghijklmnopqrstuvwxyz".

Definition digit (d : Z) : Ascii.ascii :=
  default "0"%char (String.get (Z.to_nat d) digits).

(** [FormatUint u base]: the digits of [u], most significant first.  The
    loop divides [u] by [base] until it is below [base]; 64 rounds are
    enough for every uint64 and every base from 2 to 36. *)
Fixpoint formatBits (fuel : nat) (u base : Z) (a : string) : string :=
  match fuel with
  | O => a
  | S fuel' =>
      if base <=? u
      then formatBits fuel' (u / base) base (String (digit (u mod base)) a)
      else String (digit u) a
  end.

Definition FormatUint (u base : Z) : string := formatBits 64 u base "".

End strconv.

(** ** The data model *)

Inductive error : Type :=
  | ErrExpressionPartNotFound
  | Errorf (msg : string)
  | PathError (msg : string).

#[global] Instance error_eq_dec : EqDecision error.
Proof. solve_decision. Defined.

(** The operators of cel-go that the engine switches on. *)
Module operators.
Definition Equals : string := "_==_".
Definition NotEquals : string := "_!=_".
End operators.

(** Modelled from the spec: the declarations of [groupID], [Predicate],
    [ExpressionPart] and [StoredExpressionPart], with [ToStored],
    [EqualsStored], [LiteralAsString] and [OptimizeNone], are not in the
    engine's source file.  A group
    identifier "carries an associated optimization flag/threshold
    ([Flag()]), a small integer", and [OptimizeNone] is the flag that asks
    for no equality match at all. *)
Record groupID : Type := mkGroupID {
  group_key : N;
  Flag : Z
}.

Definition OptimizeNone : Z := 0.

#[global] Instance groupID_eq_dec : EqDecision groupID.
Proof. solve_decision. Defined.

(** "Predicate: an operator, a field identifier (path string), and a
    literal string value to compare against." *)
Record Predicate : Type := mkPredicate {
  Ident : string;
  Literal : string;
  Operator : string
}.

#[global] Instance Predicate_eq_dec : EqDecision Predicate.
Proof. solve_decision. Defined.

Definition LiteralAsString (p : Predicate) : string := Literal p.

(** "ExpressionPart: a predicate plus identifiers of the owning expression
    (EvaluableID) and the group it belongs to (GroupID)." *)
Record ExpressionPart : Type := mkExpressionPart {
  EvaluableID : N;
  GroupID : groupID;
  Pred : Predicate
}.

(** The stored form.  The source reads its fields [EvaluableID], [GroupID]
    and [Ident], a pointer to a string that may be nil.  The spec calls it
    "storage-optimized" and "equality-comparable against a transient
    ExpressionPart for removal" without naming what it keeps of the
    predicate; here it keeps the predicate itself. *)
Record StoredExpressionPart : Type := mkStored {
  sEvaluableID : N;
  sGroupID : groupID;
  sIdent : option string;
  sPred : Predicate
}.

#[global] Instance StoredExpressionPart_eq_dec : EqDecision StoredExpressionPart.
Proof. solve_decision. Defined.

Definition ToStored (p : ExpressionPart) : StoredExpressionPart :=
  {| sEvaluableID := EvaluableID p;
     sGroupID := GroupID p;
     sIdent := Some (Ident (Pred p));
     sPred := Pred p |}.

(** The storage-equality contract: [eval] is the stored form of [p]. *)
Definition EqualsStored (p : ExpressionPart) (eval : StoredExpressionPart) : bool :=
  bool_decide (ToStored p = eval).

(** Modelled from the spec: the match result accumulator ([MatchResult]
    with [Add], [AddExprs] and [GroupMatches]) is not in the engine's
    source file.  It is "a concurrency-safe multiset of (EvaluableID,
    GroupID) matches, queryable by count-per-group": the list of the hits
    recorded so far, of which only the number of occurrences of each pair
    is observable. *)
Module MatchResult.

Definition t : Type := list (N * groupID).

Definition Add (result : t) (evalID : N) (gID : groupID) : t :=
  result ++ [(evalID, gID)].

Definition hit (expr : StoredExpressionPart) : N * groupID :=
  (sEvaluableID expr, sGroupID expr).

Definition AddExprs (result : t) (exprs : list StoredExpressionPart) : t :=
  result ++ (hit <$> exprs).

Fixpoint count (result : t) (h : N * groupID) : nat :=
  match result with
  | [] => O
  | x :: rest => (if bool_decide (x = h) then 1 else 0)%nat + count rest h
  end.

Definition GroupMatches (result : t) (evalID : N) (gID : groupID) : Z :=
  Z.of_nat (count result (evalID, gID)).

End MatchResult.

(** Go's conversions [int8(x)] and the wrap-around of an int32 counter. *)
Definition int8 (z : Z) : Z := (z + 128) mod 256 - 128.
Definition int32 (z : Z) : Z := (z + 2 ^ 31) mod 2 ^ 32 - 2 ^ 31.

(** ** The engine *)

Abbreviation variableMap := (gmap string (list StoredExpressionPart)).
Abbreviation inequalityMap := (gmap string (gmap string (list StoredExpressionPart))).

Record stringLookup : Type := mkStringLookup {
  vars : gset string;
  equality : variableMap;
  inequality : inequalityMap;
  concurrency : Z
}.

Definition newStringEqualityMatcher (concurrency : Z) : stringLookup :=
  {| vars := ∅; equality := ∅; inequality := ∅; concurrency := concurrency |}.

Definition hash (input : string) : string :=
  strconv.FormatUint (xxhash.Sum64String input) 36.

(** [n.equality[k]] and [n.inequality[path][k]]: a missing key reads as
    the nil slice, a missing path as the nil map. *)
Definition bucket (m : variableMap) (k : string) : list StoredExpressionPart :=
  default [] (m !! k).

Definition pathBuckets (m : inequalityMap) (path : string) : variableMap :=
  default ∅ (m !! path).

(** *** equalitySearch *)

(** The condition under which the loop of [equalitySearch] skips a part. *)
Definition identMismatch (part : StoredExpressionPart) (variable : string) : bool :=
  match sIdent part with
  | Some ident => negb (bool_decide (ident = variable))
  | None => false
  end.

Fixpoint equalityLoop (variable : string) (parts : list StoredExpressionPart)
    (result : MatchResult.t) (neqOptimized : bool) : MatchResult.t * bool :=
  match parts with
  | [] => (result, neqOptimized)
  | part :: rest =>
      if identMismatch part variable then
        equalityLoop variable rest result neqOptimized
      else
        equalityLoop variable rest
          (MatchResult.Add result (sEvaluableID part) (sGroupID part))
          (if bool_decide (Flag (sGroupID part) ≠ OptimizeNone)
           then true else neqOptimized)
  end.

Definition equalitySearch (n : stringLookup) (variable input : string)
    (result : MatchResult.t) : MatchResult.t * bool :=
  let hashedInput := hash input in
  equalityLoop variable (bucket (equality n) hashedInput) result false.

(** [Search]: the input is an [any]; anything but a string returns at
    once. *)
#[warnings="-register-all"] Inductive any : Type :=
  | AnyNil
  | AnyBool (b : bool)
  | AnyNumber (z : Z)
  | AnyString (s : string)
  | AnyList (l : list any)
  | AnyMap (m : list (string * any)).

Definition Search (n : stringLookup) (variable : string) (input : any)
    (result : MatchResult.t) : MatchResult.t :=
  match input with
  | AnyString str => (equalitySearch n variable str result).1
  | _ => result
  end.

(** *** inequalitySearch *)

(** The inner loop over the parts of one bucket when the optimization
    signal is up. *)
Fixpoint inequalityExprs (exprs : list StoredExpressionPart)
    (result : MatchResult.t) : MatchResult.t :=
  match exprs with
  | [] => result
  | expr :: rest =>
      let res := MatchResult.GroupMatches result (sEvaluableID expr) (sGroupID expr) in
      if int8 res <? int8 (Flag (sGroupID expr)) then
        inequalityExprs rest result
      else
        inequalityExprs rest (MatchResult.AddExprs result [expr])
  end.

(** The loop over the buckets of one field path.  Go does not fix the
    order in which [range] yields the entries of a map: [order] is the
    sequence of (hash, bucket) entries of one run. *)
Fixpoint inequalityLoop (hashedInput : string) (neqOptimized : bool)
    (order : list (string * list StoredExpressionPart))
    (result : MatchResult.t) : MatchResult.t :=
  match order with
  | [] => result
  | (value, exprs) :: rest =>
      if bool_decide (value = hashedInput) then
        inequalityLoop hashedInput neqOptimized rest result
      else if negb neqOptimized then
        inequalityLoop hashedInput neqOptimized rest
          (MatchResult.AddExprs result exprs)
      else
        inequalityLoop hashedInput neqOptimized rest
          (inequalityExprs exprs result)
  end.

(** [inequalitySearch] with the iteration order of the map made explicit;
    it returns the accumulator and the slice [matched], which the source
    never appends to. *)
Definition inequalitySearchIn (order : list (string * list StoredExpressionPart))
    (n : stringLookup) (variable input : string) (neqOptimized : bool)
    (result : MatchResult.t) : MatchResult.t * list StoredExpressionPart :=
  if bool_decide (size (pathBuckets (inequality n) variable) = 0%nat) then
    (result, [])
  else
    let hashedInput := hash input in
    (inequalityLoop hashedInput neqOptimized order result, []).

Definition inequalitySearch (n : stringLookup) (variable input : string)
    (neqOptimized : bool) (result : MatchResult.t)
  : MatchResult.t * list StoredExpressionPart :=
  inequalitySearchIn (map_to_list (pathBuckets (inequality n) variable))
    n variable input neqOptimized result.

(** *** Add and Remove *)

Definition unsupported : error :=
  Errorf "StringHash engines only support string equality/inequality".

Definition Add (n : stringLookup) (p : ExpressionPart) : stringLookup * option error :=
  if bool_decide (Operator (Pred p) = operators.Equals) then
    let val := hash (LiteralAsString (Pred p)) in
    let vars' := {[ Ident (Pred p) ]} ∪ vars n in
    match equality n !! val with
    | None =>
        ({| vars := vars';
            equality := <[val := [ToStored p]]> (equality n);
            inequality := inequality n;
            concurrency := concurrency n |}, None)
    | Some coll =>
        ({| vars := vars';
            equality := <[val := coll ++ [ToStored p]]> (equality n);
            inequality := inequality n;
            concurrency := concurrency n |}, None)
    end
  else if bool_decide (Operator (Pred p) = operators.NotEquals) then
    let val := hash (LiteralAsString (Pred p)) in
    match inequality n !! Ident (Pred p) with
    | None =>
        ({| vars := vars n;
            equality := equality n;
            inequality := <[Ident (Pred p) := {[ val := [ToStored p] ]}]> (inequality n);
            concurrency := concurrency n |}, None)
    | Some m =>
        ({| vars := vars n;
            equality := equality n;
            inequality :=
              <[Ident (Pred p) := <[val := bucket m val ++ [ToStored p]]> m]>
                (inequality n);
            concurrency := concurrency n |}, None)
    end
  else (n, Some unsupported).

(** The scan of [Remove]: the bucket without the first part that
    [EqualsStored] accepts, [None] when there is no such part. *)
Fixpoint splice (p : ExpressionPart) (coll : list StoredExpressionPart)
  : option (list StoredExpressionPart) :=
  match coll with
  | [] => None
  | eval :: rest =>
      if EqualsStored p eval then Some rest
      else cons eval <$> splice p rest
  end.

Definition Remove (n : stringLookup) (p : ExpressionPart) : stringLookup * option error :=
  if bool_decide (Operator (Pred p) = operators.Equals) then
    let val := hash (LiteralAsString (Pred p)) in
    match equality n !! val with
    | None => (n, Some ErrExpressionPartNotFound)
    | Some coll =>
        match splice p coll with
        | Some coll' =>
            ({| vars := vars n;
                equality := <[val := coll']> (equality n);
                inequality := inequality n;
                concurrency := concurrency n |}, None)
        | None => (n, Some ErrExpressionPartNotFound)
        end
    end
  else if bool_decide (Operator (Pred p) = operators.NotEquals) then
    let val := hash (LiteralAsString (Pred p)) in
    match inequality n !! Ident (Pred p) with
    | None => (n, Some ErrExpressionPartNotFound)
    | Some m =>
        match m !! val with
        | None => (n, None)
        | Some coll =>
            match splice p coll with
            | Some coll' =>
                ({| vars := vars n;
                    equality := equality n;
                    inequality := <[Ident (Pred p) := <[val := coll']> m]> (inequality n);
                    concurrency := concurrency n |}, None)
            | None => (n, Some ErrExpressionPartNotFound)
            end
        end
    end
  else (n, Some unsupported).

(** ** The parts a search looks at *)

(** The parts of a bucket that the loop of [equalitySearch] does not skip,
    and the parts [equalitySearch] records a hit for. *)
Definition equalityHits (variable : string) (parts : list StoredExpressionPart)
  : list StoredExpressionPart :=
  filter (λ part, identMismatch part variable = false) parts.

Definition reportedParts (n : stringLookup) (variable input : string)
  : list StoredExpressionPart :=
  equalityHits variable (bucket (equality n) (hash input)).

(** The parts of the buckets that the loop of [inequalitySearch] does not
    skip, in the order it meets them. *)
Definition inequalityVisited (hashedInput : string)
    (order : list (string * list StoredExpressionPart))
  : list StoredExpressionPart :=
  mjoin (snd <$> filter (λ kv, kv.1 ≠ hashedInput) order).

(** *** Match *)

(** The JSON-path library (github.com/ohler55/ojg/jp) is a parameter of
    the engine: [ParseString] compiles a field path or fails, [Get] returns
    the values the compiled path selects in the event. *)
Section Match.

Variable Expr : Type.
Variable ParseString : string → Expr + error.
Variable Get : Expr → gmap string any → list any.

(** The string a task searches with: "default to an empty string". *)
Definition fieldValue (x : Expr) (input : gmap string any) : string :=
  match Get x input with
  | AnyString value :: _ => value
  | _ => ""
  end.

(** Modelled from the spec: the error pool ([newErrPool], [Go], [Wait]) is
    not in the engine's source file: a task group whose "join operation
    ... blocks until all submitted work completes, returning the first
    error encountered".  The tasks of a phase are run one after the other in the
    order [paths]; the state of a phase is the first error, the
    accumulator and the counter [neqOptimized]. *)
Definition firstError (err next : option error) : option error :=
  match err with
  | Some e => Some e
  | None => next
  end.

(** One task of the equality phase. *)
Definition equalityTask (n : stringLookup) (input : gmap string any)
    (path : string) (st : option error * MatchResult.t * Z)
  : option error * MatchResult.t * Z :=
  let '(err, result, neqOptimized) := st in
  match ParseString path with
  | inr e => (firstError err (Some e), result, neqOptimized)
  | inl x =>
      let str := fieldValue x input in
      let '(result', opt) := equalitySearch n path str result in
      (err, result', if opt then int32 (neqOptimized + 1) else neqOptimized)
  end.

Definition equalityPhase (n : stringLookup) (input : gmap string any)
    (paths : list string) (result : MatchResult.t)
  : option error * MatchResult.t * Z :=
  foldl (λ st path, equalityTask n input path st) (None, result, 0) paths.

(** One task of the inequality phase; [orderOf path] is the order in which
    the task ranges over the buckets of [path]. *)
Definition inequalityTask
    (orderOf : string → list (string * list StoredExpressionPart))
    (n : stringLookup) (input : gmap string any) (neqOptimized : Z)
    (path : string) (st : option error * MatchResult.t)
  : option error * MatchResult.t :=
  let '(err, result) := st in
  match ParseString path with
  | inr e => (firstError err (Some e), result)
  | inl x =>
      let str := fieldValue x input in
      (err, (inequalitySearchIn (orderOf path) n path str
               (bool_decide (0 < neqOptimized)) result).1)
  end.

Definition inequalityPhase
    (orderOf : string → list (string * list StoredExpressionPart))
    (n : stringLookup) (input : gmap string any) (neqOptimized : Z)
    (paths : list string) (result : MatchResult.t)
  : option error * MatchResult.t :=
  foldl (λ st path, inequalityTask orderOf n input neqOptimized path st)
    (None, result) paths.

(** [Match] with the iteration orders of its three map ranges explicit:
    [eqPaths] over [n.vars], [neqPaths] over [n.inequality], [orderOf] over
    the buckets of a path. *)
Definition MatchIn (eqPaths neqPaths : list string)
    (orderOf : string → list (string * list StoredExpressionPart))
    (n : stringLookup) (input : gmap string any) (result : MatchResult.t)
  : option error * MatchResult.t :=
  let '(err, result1, neqOptimized) := equalityPhase n input eqPaths result in
  match err with
  | Some e => (Some e, result1)
  | None => inequalityPhase orderOf n input neqOptimized neqPaths result1
  end.

Definition Match (n : stringLookup) (input : gmap string any)
    (result : MatchResult.t) : option error * MatchResult.t :=
  MatchIn (elements (vars n)) (elements (dom (inequality n)))
    (λ path, map_to_list (pathBuckets (inequality n) path))
    n input result.

(** The parts the task of a path records a hit for in the equality phase,
    and the parts the task of a path does not skip in the inequality
    phase; a path that does not parse contributes none. *)
Definition taskReported (n : stringLookup) (input : gmap string any)
    (path : string) : list StoredExpressionPart :=
  match ParseString path with
  | inr _ => []
  | inl x => reportedParts n path (fieldValue x input)
  end.

Definition taskVisited
    (orderOf : string → list (string * list StoredExpressionPart))
    (n : stringLookup) (input : gmap string any)
    (path : string) : list StoredExpressionPart :=
  match ParseString path with
  | inr _ => []
  | inl x =>
      if bool_decide (size (pathBuckets (inequality n) path) = 0%nat) then []
      else inequalityVisited (hash (fieldValue x input)) (orderOf path)
  end.

(** A task of the equality phase raises the signal when a part it reports
    has a flagged group. *)
Definition flagged (part : StoredExpressionPart) : Prop :=
  Flag (sGroupID part) ≠ OptimizeNone.

Definition taskFlagged (n : stringLookup) (input : gmap string any)
    (path : string) : bool :=
  bool_decide (Exists flagged (taskReported n input path)).

(** [orderOf] gives, for every path, an order in which a range over the
    buckets of the path can run. *)
Definition rangeOrder
    (orderOf : string → list (string * list StoredExpressionPart))
    (n : stringLookup) : Prop :=
  ∀ path, orderOf path ≡ₚ map_to_list (pathBuckets (inequality n) path).

End Match.

Arguments fieldValue {Expr} Get x input.
Arguments equalityTask {Expr} ParseString Get n input path st.
Arguments equalityPhase {Expr} ParseString Get n input paths result.
Arguments inequalityTask {Expr} ParseString Get orderOf n input neqOptimized path st.
Arguments inequalityPhase {Expr} ParseString Get orderOf n input neqOptimized paths result.
Arguments MatchIn {Expr} ParseString Get eqPaths neqPaths orderOf n input result.
Arguments Match {Expr} ParseString Get n input result.
Arguments taskReported {Expr} ParseString Get n input path.
Arguments taskVisited {Expr} ParseString Get orderOf n input path.
Arguments taskFlagged {Expr} ParseString Get n input path.

(** A field extractor for paths that are a single key of the event: the
    path [status] selects [input["status"]] when the key is there. *)
Module keypath.
Definition ParseString (path : string) : string + error := inl path.
Definition Get (x : string) (input : gmap string any) : list any :=
  match input !! x with
  | Some v => [v]
  | None => []
  end.
End keypath.

(** ** Reachable states *)

(** The engine is driven by [Add] and [Remove]; a state is reachable when a
    sequence of these calls leads to it from a new engine.  A call that
    returns an error is part of the sequence like any other. *)
Inductive op : Type :=
  | OpAdd (p : ExpressionPart)
  | OpRemove (p : ExpressionPart).

Definition apply_op (n : stringLookup) (o : op) : stringLookup :=
  match o with
  | OpAdd p => (Add n p).1
  | OpRemove p => (Remove n p).1
  end.

Definition run (ops : list op) (n : stringLookup) : stringLookup :=
  foldl apply_op n ops.

Definition reachable (n : stringLookup) : Prop :=
  ∃ c ops, n = run ops (newStringEqualityMatcher c).

(** The bucket [Add p] appends to, and the one [Remove p] scans. *)
Definition targetBucket (n : stringLookup) (p : ExpressionPart)
  : list StoredExpressionPart :=
  let val := hash (LiteralAsString (Pred p)) in
  if bool_decide (Operator (Pred p) = operators.Equals) then
    bucket (equality n) val
  else
    bucket (pathBuckets (inequality n) (Ident (Pred p))) val.

(** Every [Add] of the sequence registers a part that is not in its
    bucket at that moment. *)
Fixpoint addsFresh (ops : list op) (n : stringLookup) : bool :=
  match ops with
  | [] => true
  | OpAdd p :: rest =>
      bool_decide (ToStored p ∉ targetBucket n p) && addsFresh rest (Add n p).1
  | OpRemove p :: rest => addsFresh rest (Remove n p).1
  end.

(** The identifiers of the stored parts of the equality index. *)
Definition equalityIdents (n : stringLookup) : gset string :=
  ⋃ ((λ kv, list_to_set (omap sIdent kv.2)) <$> map_to_list (equality n)).

(** No bucket holds a stored part twice. *)
Definition bucketsNoDup (n : stringLookup) : Prop :=
  (∀ k coll, equality n !! k = Some coll → NoDup coll) ∧
  (∀ path m k coll,
      inequality n !! path = Some m → m !! k = Some coll → NoDup coll).

(** Every stored part sits in the bucket of its literal's hash (and, for an
    inequality, of its field path), carries its predicate's identifier,
    and the paths of the equality parts are in [vars]. *)
Definition indexed (n : stringLookup) : Prop :=
  (∀ k coll part,
      equality n !! k = Some coll → part ∈ coll →
      k = hash (LiteralAsString (sPred part)) ∧
      Operator (sPred part) = operators.Equals ∧
      sIdent part = Some (Ident (sPred part)) ∧
      Ident (sPred part) ∈ vars n) ∧
  (∀ path m k coll part,
      inequality n !! path = Some m → m !! k = Some coll → part ∈ coll →
      k = hash (LiteralAsString (sPred part)) ∧
      Operator (sPred part) = operators.NotEquals ∧
      sIdent part = Some path ∧
      path = Ident (sPred part)).

(** Every stored part of the state is the stored form of a part
    that some [Add] of the sequence registered. *)
Definition storedFrom (ops : list op) (n : stringLookup) : Prop :=
  (∀ k coll part, equality n !! k = Some coll → part ∈ coll →
     ∃ q, OpAdd q ∈ ops ∧ part = ToStored q) ∧
  (∀ path m k coll part,
     inequality n !! path = Some m → m !! k = Some coll → part ∈ coll →
     ∃ q, OpAdd q ∈ ops ∧ part = ToStored q).

(** ** The scenario of the specification

    Two registered predicates, [status == "active"] and
    [status != "inactive"], neither group flagged, and parts that are
    used against them. *)
Module scenario.

Definition G1 : groupID := mkGroupID 1 OptimizeNone.
Definition G2 : groupID := mkGroupID 2 OptimizeNone.

Definition isActive : ExpressionPart :=
  mkExpressionPart 1 G1 (mkPredicate "status" "active" operators.Equals).
Definition notInactive : ExpressionPart :=
  mkExpressionPart 2 G2 (mkPredicate "status" "inactive" operators.NotEquals).

(** Parts that are never added. *)
Definition isPending : ExpressionPart :=
  mkExpressionPart 3 G1 (mkPredicate "status" "pending" operators.Equals).
Definition notPending : ExpressionPart :=
  mkExpressionPart 4 G2 (mkPredicate "status" "pending" operators.NotEquals).
Definition lessThan : ExpressionPart :=
  mkExpressionPart 5 G1 (mkPredicate "status" "pending" "_<_").

Definition ops : list op := [OpAdd isActive; OpAdd notInactive].

Definition engine : stringLookup := run ops (newStringEqualityMatcher 0).

(** [isActive] added and removed again. *)
Definition emptied : stringLookup :=
  run [OpAdd isActive; OpRemove isActive] (newStringEqualityMatcher 0).

(** [isActive] added twice. *)
Definition doubled : stringLookup :=
  run [OpAdd isActive; OpAdd isActive] (newStringEqualityMatcher 0).

(** Events. *)
Definition active : gmap string any := {[ "status" := AnyString "active" ]}.
Definition inactive : gmap string any := {[ "status" := AnyString "inactive" ]}.
Definition numeric : gmap string any := {[ "status" := AnyNumber 3 ]}.

(** A group that asks for one equality match, with an equality and an
    inequality part, and a second expression with a flagged inequality
    part of its own. *)
Definition G3 : groupID := mkGroupID 3 1.
Definition G4 : groupID := mkGroupID 4 1.

Definition isPro : ExpressionPart :=
  mkExpressionPart 6 G3 (mkPredicate "plan" "pro" operators.Equals).
Definition notInactivePro : ExpressionPart :=
  mkExpressionPart 6 G3 (mkPredicate "status" "inactive" operators.NotEquals).
Definition notInactiveTeam : ExpressionPart :=
  mkExpressionPart 9 G4 (mkPredicate "status" "inactive" operators.NotEquals).

Definition flaggedEngine : stringLookup :=
  run [OpAdd isPro; OpAdd notInactivePro; OpAdd notInactiveTeam]
    (newStringEqualityMatcher 0).

Definition activePro : gmap string any :=
  {[ "status" := AnyString "active"; "plan" := AnyString "pro" ]}.

(** Predicates on the empty string. *)
Definition isEmpty : ExpressionPart :=
  mkExpressionPart 7 G1 (mkPredicate "status" "" operators.Equals).
Definition notEmpty : ExpressionPart :=
  mkExpressionPart 8 G2 (mkPredicate "status" "" operators.NotEquals).

Definition emptyEngine : stringLookup :=
  run [OpAdd isEmpty; OpAdd notEmpty; OpAdd notInactive]
    (newStringEqualityMatcher 0).

End scenario.

(** ** Counts of hits *)

(** What the inner loop of [inequalitySearch] does to the count of the
    pair of the part it looks at, whose group has the flag [flag]. *)
Definition thresholdStep (flag : Z) (c : nat) : nat :=
  if int8 (Z.of_nat c) <? int8 flag then c else S c.

(** Two accumulators hold every pair the same number of times. *)
Definition sameCounts (result result' : MatchResult.t) : Prop :=
  ∀ h, MatchResult.count result h = MatchResult.count result' h.

(** A field extractor as [keypath] whose parser rejects the path [[],
    an opening bracket that is never closed. *)
Module strictpath.
Definition ParseString (path : string) : string + error :=
  if bool_decide (path = "[") then inr (PathError "unterminated bracket")
  else inl path.
End strictpath.

(** The position of a character among the digits of [strconv], 36 for a
    character that is not one of them. *)
Fixpoint digitIndex (a : Ascii.ascii) (s : string) : Z :=
  match s with
  | EmptyString => 0
  | String c rest => if bool_decide (c = a) then 0 else 1 + digitIndex a rest
  end.

(** More parts for the scenario: an engine with two paths in each index,
    and a part whose identifier the parser of [strictpath] rejects. *)
Module scenario2.

Definition notFree : ExpressionPart :=
  mkExpressionPart 6 scenario.G3 (mkPredicate "plan" "free" operators.NotEquals).

Definition wideEngine : stringLookup :=
  run [OpAdd scenario.isPro; OpAdd scenario.isActive;
       OpAdd scenario.notInactivePro; OpAdd scenario.notInactiveTeam;
       OpAdd scenario.notPending; OpAdd notFree]
    (newStringEqualityMatcher 0).

Definition unclosed : ExpressionPart :=
  mkExpressionPart 10 scenario.G1 (mkPredicate "[" "x" operators.Equals).

End scenario2.

(** ** Package headers *)

(** The header maps of net/http and the canonical form of their keys
    (net/textproto of the Go standard library): the first letter and the
    letters that follow a hyphen in upper case, the others in lower case;
    a key with a byte that is not a token character is left as it is. *)
Module textproto.

Definition byte (c : Ascii.ascii) : N := Ascii.N_of_ascii c.

Definition isLower (c : Ascii.ascii) : bool :=
  ((97 <=? byte c) && (byte c <=? 122))%N.

Definition isUpper (c : Ascii.ascii) : bool :=
  ((65 <=? byte c) && (byte c <=? 90))%N.

Definition isDigit (c : Ascii.ascii) : bool :=
  ((48 <=? byte c) && (byte c <=? 57))%N.

Definition validHeaderFieldByte (c : Ascii.ascii) : bool :=
  isLower c || isUpper c || isDigit c
  || bool_decide (c ∈ String.list_ascii_of_string "!#$%&'*+-.^_`|~").

Definition toLower : N := 32.

(** The scan of [canonicalMIMEHeaderKey] for bytes that are not valid:
    [None] when one is neither valid nor a space, otherwise whether a
    space was met. *)
Fixpoint scanKey (a : string) (noCanon : bool) : option bool :=
  match a with
  | EmptyString => Some noCanon
  | String c rest =>
      if validHeaderFieldByte c then scanKey rest noCanon
      else if bool_decide (c = " "%char) then scanKey rest true
      else None
  end.

Fixpoint canonicalize (upper : bool) (a : string) : string :=
  match a with
  | EmptyString => EmptyString
  | String c rest =>
      let c' :=
        if upper && isLower c then Ascii.ascii_of_N (byte c - toLower)
        else if negb upper && isUpper c then Ascii.ascii_of_N (byte c + toLower)
        else c in
      String c' (canonicalize (bool_decide (c' = "-"%char)) rest)
  end.

Definition canonicalMIMEHeaderKey (a : string) : string * bool :=
  match scanKey a false with
  | None => (a, false)
  | Some true => (a, true)
  | Some false => (canonicalize true a, true)
  end.

(** The quick check of [CanonicalMIMEHeaderKey]: [true] when a letter in
    the wrong case is met before any byte that is not valid. *)
Fixpoint notCanonical (upper : bool) (s : string) : bool :=
  match s with
  | EmptyString => false
  | String c rest =>
      if negb (validHeaderFieldByte c) then false
      else if upper && isLower c then true
      else if negb upper && isUpper c then true
      else notCanonical (bool_decide (c = "-"%char)) rest
  end.

Definition CanonicalMIMEHeaderKey (s : string) : string :=
  if notCanonical true s then (canonicalMIMEHeaderKey s).1 else s.

End textproto.

Module http.

(** [http.Header]: a map from keys to the values of the key. *)
Abbreviation Header := (gmap string (list string)).

Definition Get (h : Header) (key : string) : string :=
  match h !! textproto.CanonicalMIMEHeaderKey key with
  | Some (v :: _) => v
  | _ => ""
  end.

Definition Set_ (h : Header) (key value : string) : Header :=
  <[textproto.CanonicalMIMEHeaderKey key := [value]]> h.

End http.

Module headers.

Definition HeaderKeySDK : string := "X-Inngest-SDK".
Definition HeaderKeyServerKind : string := "X-Inngest-Server-Kind".
Definition HeaderKeyExpectedServerKind : string := "X-Inngest-Expected-Server-Kind".
Definition HeaderKeySignature : string := "X-Inngest-Signature".
Definition HeaderAuthorization : string := "Authorization".
Definition HeaderContentType : string := "Content-Type".
Definition HeaderUserAgent : string := "User-Agent".
Definition HeaderEventIDSeed : string := "x-inngest-event-id-seed".

Definition ServerKindCloud : string := "cloud".
Definition ServerKindDev : string := "dev".

Definition IsSDK (h : http.Header) : bool :=
  negb (bool_decide (http.Get h HeaderKeySDK = "")).

(** A response writer is its header map and the rest of its state (the
    status and the body written so far); a handler serves a request by
    changing the writer it is given. *)
Section Middleware.

Variable Request : Type.
Variable Written : Type.

Record ResponseWriter : Type := mkResponseWriter {
  Header : http.Header;
  written : Written
}.

Definition Handler : Type := ResponseWriter → Request → ResponseWriter.

Definition setHeader (w : ResponseWriter) (key value : string) : ResponseWriter :=
  {| Header := http.Set_ (Header w) key value; written := written w |}.

(** [None] is the panic on an empty server kind. *)
Definition StaticHeadersMiddleware (serverKind : string)
  : option (Handler → Handler) :=
  if bool_decide (serverKind = "") then None
  else Some (λ next w r, next (setHeader w HeaderKeyServerKind serverKind) r).

Definition ContentTypeJsonResponse : Handler → Handler :=
  λ next w r, next (setHeader w "Content-Type" "application/json") r.

End Middleware.

Arguments Header {Written} _.
Arguments written {Written} _.
Arguments mkResponseWriter {Written} _ _.
Arguments setHeader {Written} w key value.
Arguments StaticHeadersMiddleware {Request Written} serverKind.
Arguments ContentTypeJsonResponse {Request Written} next w r.

End headers.

(** ** The hash: the fuel of the loops is enough *)

Section Hash.

Lemma blocks_rest fuel (b : list Z) v :
  (length b ≤ 32 * fuel)%nat → (length (xxhash.blocks fuel b v).1 < 32)%nat.
Proof.
  revert b v. induction fuel as [|fuel IH]; intros b v Hlen; simpl.
  - lia.
  - destruct (decide (32 ≤ length b)%nat) as [Hge|Hlt]; [|simpl; lia].
    destruct v as [[[v1 v2] v3] v4]. apply IH. rewrite length_drop. lia.
Qed.

Lemma tail8_rest fuel (b : list Z) h :
  (length b ≤ 8 * fuel)%nat → (length (xxhash.tail8 fuel b h).1 < 8)%nat.
Proof.
  revert b h. induction fuel as [|fuel IH]; intros b h Hlen; simpl.
  - lia.
  - destruct (decide (8 ≤ length b)%nat) as [Hge|Hlt]; [|simpl; lia].
    apply IH. rewrite length_drop. lia.
Qed.

Lemma u64_range z : 0 ≤ xxhash.u64 z < 2 ^ 64.
Proof. unfold xxhash.u64. apply Z.mod_pos_bound. lia. Qed.

Lemma lxor_range a b : 0 ≤ a < 2 ^ 64 → 0 ≤ b < 2 ^ 64 → 0 ≤ Z.lxor a b < 2 ^ 64.
Proof.
  intros Ha Hb.
  assert (H0 : 0 ≤ Z.lxor a b) by (apply Z.lxor_nonneg; lia).
  split; [done|].
  destruct (decide (Z.lxor a b = 0)) as [->|Hne]; [lia|].
  apply Z.log2_lt_pow2; [lia|].
  pose proof (Z.log2_lxor a b ltac:(lia) ltac:(lia)) as Hl.
  assert (Z.log2 a < 64).
  { destruct (decide (a = 0)) as [->|?]; [simpl; lia|].
    apply Z.log2_lt_pow2; lia. }
  assert (Z.log2 b < 64).
  { destruct (decide (b = 0)) as [->|?]; [simpl; lia|].
    apply Z.log2_lt_pow2; lia. }
  lia.
Qed.

(** The digest is a uint64. *)
Lemma Sum64String_range s : 0 ≤ xxhash.Sum64String s < 2 ^ 64.
Proof.
  unfold xxhash.Sum64String, xxhash.Sum64.
  destruct (if decide _ then _ else _) as [b h].
  destruct (xxhash.tail8 _ _ _) as [b1 h1].
  destruct (xxhash.tail4 _ _) as [b2 h2].
  unfold xxhash.avalanche.
  apply lxor_range; [apply u64_range|].
  pose proof (u64_range
    (Z.lxor (xxhash.u64 (Z.lxor (xxhash.tail1 b2 h2)
                           (Z.shiftr (xxhash.tail1 b2 h2) 33) * xxhash.prime2))
       (Z.shiftr (xxhash.u64 (Z.lxor (xxhash.tail1 b2 h2)
                                (Z.shiftr (xxhash.tail1 b2 h2) 33) * xxhash.prime2)) 29)
     * xxhash.prime3)) as Hu.
  set (h3 := xxhash.u64 _) in *.
  rewrite Z.shiftr_div_pow2 by lia. split.
  - apply Z.div_pos; lia.
  - apply Z.div_lt_upper_bound; lia.
Qed.

(** [formatBits] with [S fuel] rounds has written all the digits of a
    number below [2 ^ (fuel + 1)]: more rounds change nothing. *)
Lemma formatBits_enough fuel extra u base a :
  2 ≤ base → 0 ≤ u < 2 ^ (Z.of_nat fuel + 1) →
  strconv.formatBits (S fuel + extra) u base a = strconv.formatBits (S fuel) u base a.
Proof.
  intros Hbase. revert u a. induction fuel as [|fuel IH]; intros u a Hu.
  - simpl in Hu. cbn [Nat.add strconv.formatBits].
    rewrite (proj2 (Z.leb_gt base u)) by lia. done.
  - cbn [Nat.add]. cbn [strconv.formatBits]. destruct (base <=? u) eqn:Hle; [|done].
    apply Z.leb_le in Hle.
    apply (IH (u / base)). split.
    + apply Z.div_pos; lia.
    + apply Z.div_lt_upper_bound; [lia|].
      replace (Z.of_nat (S fuel) + 1) with (Z.succ (Z.of_nat fuel + 1)) in Hu by lia.
      rewrite Z.pow_succ_r in Hu by lia. nia.
Qed.

Lemma hash_fuel_enough input extra :
  strconv.formatBits (64 + extra) (xxhash.Sum64String input) 36 "" = hash input.
Proof.
  unfold hash, strconv.FormatUint.
  apply (formatBits_enough 63 extra); [lia|].
  pose proof (Sum64String_range input). simpl. lia.
Qed.

Example hash_of_empty_string : hash "" = "3mzsru4d4ty1l".
Proof. vm_compute. reflexivity. Qed.

Example xxhash_vectors :
  xxhash.Sum64String "" = 0xef46db3751d8e999 ∧
  xxhash.Sum64String "a" = 0xd24ec4f1a98c6e5b ∧
  xxhash.Sum64String "asdf" = 0x415872f599cea71e ∧
  xxhash.Sum64String
    "Call me Ishmael. Some years ago--never mind how long precisely-" =
    0x02a2e85470d6fd96.
Proof. split_and!; vm_compute; reflexivity. Qed.

Example FormatUint_base36 :
  strconv.FormatUint 0 36 = "0" ∧ strconv.FormatUint 35 36 = "z" ∧
  strconv.FormatUint 36 36 = "10" ∧
  strconv.FormatUint 18446744073709551615 2 =
    "1111111111111111111111111111111111111111111111111111111111111111".
Proof. split_and!; vm_compute; reflexivity. Qed.

End Hash.

(** ** Properties of Add and Remove *)

Section splice.

Implicit Types (p : ExpressionPart) (coll : list StoredExpressionPart).

Lemma EqualsStored_true p eval : EqualsStored p eval = true ↔ eval = ToStored p.
Proof.
  unfold EqualsStored. rewrite bool_decide_eq_true. split; congruence.
Qed.

Lemma splice_None p coll : splice p coll = None ↔ ToStored p ∉ coll.
Proof.
  induction coll as [|eval rest IH]; simpl.
  - split; [intros _; apply not_elem_of_nil | done].
  - unfold EqualsStored. case_bool_decide as Heq.
    + split; [done | intros Hn; exfalso; apply Hn; rewrite Heq; left].
    + rewrite fmap_None, IH, not_elem_of_cons. tauto.
Qed.

Lemma splice_Some p coll coll' :
  splice p coll = Some coll' →
  ∃ l1 l2, coll = l1 ++ ToStored p :: l2 ∧ coll' = l1 ++ l2 ∧ ToStored p ∉ l1.
Proof.
  revert coll'. induction coll as [|eval rest IH]; simpl; intros coll'; [done|].
  unfold EqualsStored. case_bool_decide as Heq.
  - intros [= <-]. exists [], rest. subst. split_and!; [done..|apply not_elem_of_nil].
  - intros Hs. apply fmap_Some in Hs as (rest' & Hr & ->).
    destruct (IH _ Hr) as (l1 & l2 & -> & -> & Hl1).
    exists (eval :: l1), l2. split_and!; [done..|].
    rewrite not_elem_of_cons. split; [congruence | done].
Qed.

Lemma splice_elem_of p coll coll' part :
  splice p coll = Some coll' → part ∈ coll' → part ∈ coll.
Proof.
  intros (l1 & l2 & -> & -> & _)%splice_Some.
  rewrite !elem_of_app, elem_of_cons. tauto.
Qed.

Lemma splice_NoDup p coll coll' :
  splice p coll = Some coll' → NoDup coll → NoDup coll' ∧ ToStored p ∉ coll'.
Proof.
  intros (l1 & l2 & -> & -> & Hl1)%splice_Some Hnd.
  apply NoDup_app in Hnd as (H1 & H12 & H2).
  apply NoDup_cons in H2 as [Hp H2]. split.
  - apply NoDup_app. split_and!; [done | | done].
    intros x Hx Hx2. apply (H12 x Hx). by right.
  - rewrite elem_of_app. tauto.
Qed.

Lemma splice_snoc_fresh p coll :
  ToStored p ∉ coll → splice p (coll ++ [ToStored p]) = Some coll.
Proof.
  induction coll as [|eval rest IH]; simpl; intros Hn.
  - unfold EqualsStored. by rewrite bool_decide_eq_true_2.
  - apply not_elem_of_cons in Hn as [Hne Hn].
    unfold EqualsStored. rewrite bool_decide_eq_false_2 by done.
    by rewrite IH.
Qed.

End splice.

Section AddRemove.

Implicit Types (n : stringLookup) (p : ExpressionPart).

Lemma Add_unsupported n p :
  Operator (Pred p) ≠ operators.Equals →
  Operator (Pred p) ≠ operators.NotEquals →
  Add n p = (n, Some unsupported).
Proof.
  intros H1 H2. unfold Add. by rewrite !bool_decide_eq_false_2.
Qed.

Lemma Remove_unsupported n p :
  Operator (Pred p) ≠ operators.Equals →
  Operator (Pred p) ≠ operators.NotEquals →
  Remove n p = (n, Some unsupported).
Proof.
  intros H1 H2. unfold Remove. by rewrite !bool_decide_eq_false_2.
Qed.

Lemma Add_error n p n' e :
  Add n p = (n', Some e) →
  n' = n ∧ e = unsupported ∧
  Operator (Pred p) ≠ operators.Equals ∧ Operator (Pred p) ≠ operators.NotEquals.
Proof.
  unfold Add. repeat case_bool_decide; repeat case_match; naive_solver.
Qed.

Lemma Remove_error n p n' e :
  Remove n p = (n', Some e) →
  n' = n ∧
  (e = ErrExpressionPartNotFound ∧
     (Operator (Pred p) = operators.Equals ∨ Operator (Pred p) = operators.NotEquals)
   ∨ e = unsupported ∧
     Operator (Pred p) ≠ operators.Equals ∧ Operator (Pred p) ≠ operators.NotEquals).
Proof.
  unfold Remove. repeat case_bool_decide; repeat case_match; naive_solver.
Qed.

(** Removal of an equality part: the three outcomes of the scan. *)
Lemma Remove_equality_absent n p :
  Operator (Pred p) = operators.Equals →
  ToStored p ∉ bucket (equality n) (hash (LiteralAsString (Pred p))) →
  Remove n p = (n, Some ErrExpressionPartNotFound).
Proof.
  intros Hop Hn. unfold Remove, bucket in *.
  rewrite bool_decide_eq_true_2 by done.
  destruct (equality n !! _) as [coll|]; [|done].
  simpl in Hn. apply splice_None in Hn. by rewrite Hn.
Qed.

Lemma Remove_inequality_absent n p :
  Operator (Pred p) = operators.NotEquals →
  (inequality n !! Ident (Pred p) = None ∨
   ∃ m coll, inequality n !! Ident (Pred p) = Some m ∧
     m !! hash (LiteralAsString (Pred p)) = Some coll ∧ ToStored p ∉ coll) →
  Remove n p = (n, Some ErrExpressionPartNotFound).
Proof.
  intros Hop Hn. unfold Remove.
  rewrite bool_decide_eq_false_2 by (rewrite Hop; done).
  rewrite bool_decide_eq_true_2 by done.
  destruct Hn as [-> | (m & coll & -> & -> & Hn)]; [done|].
  apply splice_None in Hn. by rewrite Hn.
Qed.

Lemma Remove_inequality_nil n p m :
  Operator (Pred p) = operators.NotEquals →
  inequality n !! Ident (Pred p) = Some m →
  m !! hash (LiteralAsString (Pred p)) = None →
  Remove n p = (n, None).
Proof.
  intros Hop Hm Hk. unfold Remove.
  rewrite bool_decide_eq_false_2 by (rewrite Hop; done).
  rewrite bool_decide_eq_true_2 by done.
  by rewrite Hm, Hk.
Qed.

End AddRemove.

Section Reachable.

Implicit Types (n : stringLookup) (p : ExpressionPart).

(** The state [Add] and a successful [Remove] leave, in one shape for the
    two branches of each. *)
Lemma Add_equality n p :
  Operator (Pred p) = operators.Equals →
  Add n p =
    ({| vars := {[ Ident (Pred p) ]} ∪ vars n;
        equality :=
          <[hash (LiteralAsString (Pred p)) :=
              bucket (equality n) (hash (LiteralAsString (Pred p))) ++ [ToStored p]]>
            (equality n);
        inequality := inequality n;
        concurrency := concurrency n |}, None).
Proof.
  intros Hop. unfold Add, bucket. rewrite bool_decide_eq_true_2 by done.
  by destruct (equality n !! _).
Qed.

Lemma Add_inequality n p :
  Operator (Pred p) = operators.NotEquals →
  Add n p =
    ({| vars := vars n;
        equality := equality n;
        inequality :=
          <[Ident (Pred p) :=
              <[hash (LiteralAsString (Pred p)) :=
                  bucket (pathBuckets (inequality n) (Ident (Pred p)))
                    (hash (LiteralAsString (Pred p))) ++ [ToStored p]]>
                (pathBuckets (inequality n) (Ident (Pred p)))]>
            (inequality n);
        concurrency := concurrency n |}, None).
Proof.
  intros Hop. unfold Add, pathBuckets, bucket.
  rewrite bool_decide_eq_false_2 by (rewrite Hop; done).
  rewrite bool_decide_eq_true_2 by done.
  destruct (inequality n !! _) as [m|]; simpl; [done|].
  by rewrite lookup_empty.
Qed.

Lemma Add_cases n p :
  Operator (Pred p) = operators.Equals ∨
  Operator (Pred p) = operators.NotEquals ∨
  Add n p = (n, Some unsupported).
Proof.
  destruct (decide (Operator (Pred p) = operators.Equals)); [by left|].
  destruct (decide (Operator (Pred p) = operators.NotEquals)); [by right; left|].
  right; right. by apply Add_unsupported.
Qed.

(** What [Remove] leaves: the state itself, or the state with one bucket
    replaced by a splice of it. *)
Lemma Remove_cases n p :
  (Remove n p).1 = n ∨
  (∃ coll coll',
      Operator (Pred p) = operators.Equals ∧
      equality n !! hash (LiteralAsString (Pred p)) = Some coll ∧
      splice p coll = Some coll' ∧
      Remove n p =
        ({| vars := vars n;
            equality := <[hash (LiteralAsString (Pred p)) := coll']> (equality n);
            inequality := inequality n;
            concurrency := concurrency n |}, None)) ∨
  (∃ m coll coll',
      Operator (Pred p) = operators.NotEquals ∧
      inequality n !! Ident (Pred p) = Some m ∧
      m !! hash (LiteralAsString (Pred p)) = Some coll ∧
      splice p coll = Some coll' ∧
      Remove n p =
        ({| vars := vars n;
            equality := equality n;
            inequality :=
              <[Ident (Pred p) := <[hash (LiteralAsString (Pred p)) := coll']> m]>
                (inequality n);
            concurrency := concurrency n |}, None)).
Proof.
  unfold Remove. case_bool_decide as H1; [|case_bool_decide as H2].
  - destruct (equality n !! _) as [coll|] eqn:Hc; [|by left].
    destruct (splice p coll) as [coll'|] eqn:Hs; [|by left].
    right; left. by exists coll, coll'.
  - destruct (inequality n !! _) as [m|] eqn:Hm; [|by left].
    destruct (m !! _) as [coll|] eqn:Hc; [|by left].
    destruct (splice p coll) as [coll'|] eqn:Hs; [|by left].
    right; right. by exists m, coll, coll'.
  - by left.
Qed.

Lemma run_snoc ops o n : run (ops ++ [o]) n = apply_op (run ops n) o.
Proof. unfold run. by rewrite foldl_app. Qed.

(** An invariant of [Add] and [Remove] that holds of the new engine holds
    of every reachable state. *)
Lemma reachable_ind (P : stringLookup → Prop) :
  (∀ c, P (newStringEqualityMatcher c)) →
  (∀ n p, P n → P (Add n p).1) →
  (∀ n p, P n → P (Remove n p).1) →
  ∀ n, reachable n → P n.
Proof.
  intros Hnew HAdd HRemove n (c & ops & ->).
  induction ops as [|o ops IH] using rev_ind; [apply Hnew|].
  rewrite run_snoc. destruct o; simpl; auto.
Qed.

Lemma reachable_Add n p : reachable n → reachable (Add n p).1.
Proof.
  intros (c & ops & ->). exists c, (ops ++ [OpAdd p]). by rewrite run_snoc.
Qed.

Lemma reachable_Remove n p : reachable n → reachable (Remove n p).1.
Proof.
  intros (c & ops & ->). exists c, (ops ++ [OpRemove p]). by rewrite run_snoc.
Qed.

End Reachable.

(** ** Invariants of the two indexes *)

Section Invariants.

Implicit Types (n : stringLookup) (p : ExpressionPart).

Lemma elem_of_bucket (m : variableMap) k part :
  part ∈ bucket m k ↔ ∃ coll, m !! k = Some coll ∧ part ∈ coll.
Proof.
  unfold bucket. destruct (m !! k) as [coll|]; simpl.
  - split; [eauto | by intros (? & [= <-] & ?)].
  - split; [by intros ?%elem_of_nil | by intros (? & ? & ?)].
Qed.

Lemma lookup_pathBuckets (i : inequalityMap) path k coll :
  pathBuckets i path !! k = Some coll ↔
  ∃ m, i !! path = Some m ∧ m !! k = Some coll.
Proof.
  unfold pathBuckets. destruct (i !! path) as [m|]; simpl.
  - split; [eauto | by intros (? & [= <-] & ?)].
  - rewrite lookup_empty. split; [done | by intros (? & ? & ?)].
Qed.

Lemma indexed_new c : indexed (newStringEqualityMatcher c).
Proof.
  split; simpl.
  - intros k coll part Hk. by rewrite lookup_empty in Hk.
  - intros path m k coll part Hp. by rewrite lookup_empty in Hp.
Qed.

Lemma indexed_Add n p : indexed n → indexed (Add n p).1.
Proof.
  intros [Heq Hneq].
  destruct (Add_cases n p) as [Hop | [Hop | ->]]; [| |by split].
  - rewrite Add_equality by done. split; simpl; [|done].
    intros k coll part [[<- <-] | [Hne Hk]]%lookup_insert_Some Hin.
    + apply elem_of_app in Hin as [Hin | ->%list_elem_of_singleton].
      * apply elem_of_bucket in Hin as (coll & Hk & Hin).
        destruct (Heq _ _ _ Hk Hin) as (? & ? & ? & ?).
        split_and!; [done..|]. apply elem_of_union. by right.
      * simpl. split_and!; [done..|]. apply elem_of_union. left.
        by apply elem_of_singleton.
    + destruct (Heq _ _ _ Hk Hin) as (? & ? & ? & ?).
      split_and!; [done..|]. apply elem_of_union. by right.
  - rewrite Add_inequality by done. split; simpl; [done|].
    intros path m k coll part [[<- <-] | [Hne Hm]]%lookup_insert_Some; [|by eauto].
    intros [[<- <-] | [Hne Hk]]%lookup_insert_Some Hin.
    + apply elem_of_app in Hin as [Hin | ->%list_elem_of_singleton]; [|done].
      apply elem_of_bucket in Hin as (coll & Hk & Hin).
      apply lookup_pathBuckets in Hk as (m & Hm & Hk). eauto.
    + apply lookup_pathBuckets in Hk as (m & Hm & Hk). eauto.
Qed.

Lemma indexed_Remove n p : indexed n → indexed (Remove n p).1.
Proof.
  intros [Heq Hneq].
  destruct (Remove_cases n p)
    as [-> | [(coll & coll' & Hop & Hc & Hs & ->)
            | (m & coll & coll' & Hop & Hm & Hc & Hs & ->)]]; [by split| |].
  - split; simpl; [|done].
    intros k coll1 part [[<- <-] | [Hne Hk]]%lookup_insert_Some Hin; [|by eauto].
    eauto using splice_elem_of.
  - split; simpl; [done|].
    intros path m1 k coll1 part [[<- <-] | [Hne Hm1]]%lookup_insert_Some; [|by eauto].
    intros [[<- <-] | [Hne Hk]]%lookup_insert_Some Hin; [|by eauto].
    eauto using splice_elem_of.
Qed.

Lemma indexed_reachable n : reachable n → indexed n.
Proof.
  apply reachable_ind; auto using indexed_new, indexed_Add, indexed_Remove.
Qed.

(** [Remove] never touches [vars]; [Add] only grows it. *)
Lemma Remove_vars n p : vars (Remove n p).1 = vars n.
Proof.
  destruct (Remove_cases n p)
    as [-> | [(? & ? & _ & _ & _ & ->) | (? & ? & ? & _ & _ & _ & _ & ->)]]; done.
Qed.

Lemma elem_of_equalityIdents n ident :
  ident ∈ equalityIdents n ↔
  ∃ k coll part,
    equality n !! k = Some coll ∧ part ∈ coll ∧ sIdent part = Some ident.
Proof.
  unfold equalityIdents. rewrite elem_of_union_list. split.
  - intros (X & HX & Hin).
    apply list_elem_of_fmap in HX as ([k coll] & -> & Hkv).
    apply elem_of_map_to_list in Hkv. simpl in Hin.
    apply elem_of_list_to_set, list_elem_of_omap in Hin as (part & Hin & Hid).
    by exists k, coll, part.
  - intros (k & coll & part & Hk & Hin & Hid).
    exists (list_to_set (omap sIdent coll)). split.
    + apply list_elem_of_fmap. exists (k, coll). split; [done|].
      by apply elem_of_map_to_list.
    + apply elem_of_list_to_set, list_elem_of_omap. eauto.
Qed.

Lemma equalityIdents_subseteq n : indexed n → equalityIdents n ⊆ vars n.
Proof.
  intros [Heq _] ident (k & coll & part & Hk & Hin & Hid)%elem_of_equalityIdents.
  destruct (Heq _ _ _ Hk Hin) as (_ & _ & Hid' & Hv). congruence.
Qed.

(** After adds alone, every path of [vars] still has its part. *)
Lemma vars_Add_only c ps :
  vars (foldl (λ n p, (Add n p).1) (newStringEqualityMatcher c) ps)
    ⊆ equalityIdents (foldl (λ n p, (Add n p).1) (newStringEqualityMatcher c) ps).
Proof.
  induction ps as [|p ps IH] using rev_ind; [done|].
  rewrite foldl_app. simpl.
  set (n := foldl _ _ ps) in *.
  destruct (Add_cases n p) as [Hop | [Hop | ->]]; [| |done].
  - rewrite Add_equality by done. simpl.
    intros ident Hin. apply elem_of_equalityIdents. simpl.
    apply elem_of_union in Hin as [->%elem_of_singleton | Hin].
    + eexists _, _, (ToStored p). rewrite lookup_insert_eq.
      split_and!; [done | | done]. apply elem_of_app. right. left.
    + apply IH, elem_of_equalityIdents in Hin as (k & coll & part & Hk & Hin & Hid).
      destruct (decide (hash (LiteralAsString (Pred p)) = k)) as [<-|Hne].
      * eexists _, _, part. rewrite lookup_insert_eq.
        split_and!; [done | | done]. apply elem_of_app. left.
        apply elem_of_bucket. eauto.
      * exists k, coll, part. by rewrite lookup_insert_ne.
  - rewrite Add_inequality by done. simpl. exact IH.
Qed.

Lemma bucketsNoDup_new c : bucketsNoDup (newStringEqualityMatcher c).
Proof.
  split; simpl.
  - intros k coll Hk. by rewrite lookup_empty in Hk.
  - intros path m k coll Hp. by rewrite lookup_empty in Hp.
Qed.

Lemma NoDup_bucket (m : variableMap) k :
  (∀ coll, m !! k = Some coll → NoDup coll) → NoDup (bucket m k).
Proof.
  unfold bucket. destruct (m !! k); simpl; [auto | intros _; constructor].
Qed.

Lemma bucketsNoDup_Add n p :
  ToStored p ∉ targetBucket n p → bucketsNoDup n → bucketsNoDup (Add n p).1.
Proof.
  intros Hfresh [Heq Hneq]. unfold targetBucket in Hfresh.
  destruct (Add_cases n p) as [Hop | [Hop | ->]]; [| |by split].
  - rewrite bool_decide_eq_true_2 in Hfresh by done.
    rewrite Add_equality by done. split; simpl; [|done].
    intros k coll [[<- <-] | [Hne Hk]]%lookup_insert_Some; [|by eauto].
    apply NoDup_app. split_and!.
    + apply NoDup_bucket. eauto.
    + by intros x Hx ->%list_elem_of_singleton.
    + apply NoDup_singleton.
  - rewrite bool_decide_eq_false_2 in Hfresh by (rewrite Hop; done).
    rewrite Add_inequality by done. split; simpl; [done|].
    intros path m k coll [[<- <-] | [Hne Hm]]%lookup_insert_Some; [|by eauto].
    intros [[<- <-] | [Hne Hk]]%lookup_insert_Some.
    + apply NoDup_app. split_and!.
      * apply NoDup_bucket. intros coll (m & Hm & Hk)%lookup_pathBuckets. eauto.
      * by intros x Hx ->%list_elem_of_singleton.
      * apply NoDup_singleton.
    + apply lookup_pathBuckets in Hk as (m & Hm & Hk). eauto.
Qed.

Lemma bucketsNoDup_Remove n p : bucketsNoDup n → bucketsNoDup (Remove n p).1.
Proof.
  intros [Heq Hneq].
  destruct (Remove_cases n p)
    as [-> | [(coll & coll' & Hop & Hc & Hs & ->)
            | (m & coll & coll' & Hop & Hm & Hc & Hs & ->)]]; [by split| |].
  - split; simpl; [|done].
    intros k coll1 [[<- <-] | [Hne Hk]]%lookup_insert_Some; [|by eauto].
    eapply splice_NoDup; eauto.
  - split; simpl; [done|].
    intros path m1 k coll1 [[<- <-] | [Hne Hm1]]%lookup_insert_Some; [|by eauto].
    intros [[<- <-] | [Hne Hk]]%lookup_insert_Some; [|by eauto].
    eapply splice_NoDup; eauto.
Qed.

Lemma bucketsNoDup_run ops n :
  addsFresh ops n = true → bucketsNoDup n → bucketsNoDup (run ops n).
Proof.
  revert n. induction ops as [|[p|p] ops IH]; intros n Hfresh Hn; simpl in *.
  - done.
  - apply andb_true_iff in Hfresh as [Hp Hfresh].
    apply bool_decide_eq_true in Hp.
    apply IH; [done|]. by apply bucketsNoDup_Add.
  - apply IH; [done|]. by apply bucketsNoDup_Remove.
Qed.

End Invariants.

(** ** Remove: missing parts *)

Section Removal.

Implicit Types (n : stringLookup) (p : ExpressionPart).

Lemma ToStored_inj p q : ToStored p = ToStored q → p = q.
Proof. destruct p, q. unfold ToStored. simpl. intros [= ? ? ? ?]. by subst. Qed.

Lemma storedFrom_run c ops : storedFrom ops (run ops (newStringEqualityMatcher c)).
Proof.
  induction ops as [|o ops [Heq Hneq]] using rev_ind.
  - split; simpl; intros *; by rewrite lookup_empty.
  - assert (Hmono : ∀ q, OpAdd q ∈ ops → OpAdd q ∈ ops ++ [o])
      by (intros q Hq; apply elem_of_app; by left).
    assert (Hold : storedFrom (ops ++ [o]) (run ops (newStringEqualityMatcher c))).
    { split; intros *; intros H1 H2; [|intros H3].
      - destruct (Heq _ _ _ H1 H2) as (q & ? & ?); eauto.
      - destruct (Hneq _ _ _ _ _ H1 H2 H3) as (q & ? & ?); eauto. }
    rewrite run_snoc. set (n := run ops _) in *. clearbody n.
    clear Heq Hneq. destruct Hold as [Heq Hneq].
    destruct o as [p|p]; simpl.
    + assert (Hp : OpAdd p ∈ ops ++ [OpAdd p]) by (apply elem_of_app; right; left).
      destruct (Add_cases n p) as [Hop | [Hop | ->]]; [| |by split].
      * rewrite Add_equality by done. split; simpl; [|done].
        intros k coll part [[<- <-] | [Hne Hk]]%lookup_insert_Some Hin; [|by eauto].
        apply elem_of_app in Hin as [Hin | ->%list_elem_of_singleton]; [|by eauto].
        apply elem_of_bucket in Hin as (coll & Hk & Hin). eauto.
      * rewrite Add_inequality by done. split; simpl; [done|].
        intros path m k coll part [[<- <-] | [Hne Hm]]%lookup_insert_Some; [|by eauto].
        intros [[<- <-] | [Hne Hk]]%lookup_insert_Some Hin.
        -- apply elem_of_app in Hin as [Hin | ->%list_elem_of_singleton]; [|by eauto].
           apply elem_of_bucket in Hin as (coll & Hk & Hin).
           apply lookup_pathBuckets in Hk as (m & Hm & Hk). eauto.
        -- apply lookup_pathBuckets in Hk as (m & Hm & Hk). eauto.
    + destruct (Remove_cases n p)
        as [-> | [(coll & coll' & Hop & Hc & Hs & ->)
                | (m & coll & coll' & Hop & Hm & Hc & Hs & ->)]]; [by split| |].
      * split; simpl; [|done].
        intros k coll1 part [[<- <-] | [Hne Hk]]%lookup_insert_Some Hin; [|by eauto].
        eauto using splice_elem_of.
      * split; simpl; [done|].
        intros path m1 k coll1 part [[<- <-] | [Hne Hm1]]%lookup_insert_Some; [|by eauto].
        intros [[<- <-] | [Hne Hk]]%lookup_insert_Some Hin; [|by eauto].
        eauto using splice_elem_of.
Qed.

(** The part of the contract that the code keeps: an equality part that
    was never added is not found, and neither is an inequality part whose
    field path has no entry or whose bucket exists. *)
Lemma Remove_never_added_equality c ops p :
  OpAdd p ∉ ops →
  Operator (Pred p) = operators.Equals →
  Remove (run ops (newStringEqualityMatcher c)) p =
    (run ops (newStringEqualityMatcher c), Some ErrExpressionPartNotFound).
Proof.
  intros Hnever Hop. apply Remove_equality_absent; [done|].
  intros (coll & Hk & Hin)%elem_of_bucket.
  destruct (storedFrom_run c ops) as [Heq _].
  destruct (Heq _ _ _ Hk Hin) as (q & Hq & ->%ToStored_inj). done.
Qed.

Lemma Remove_never_added_inequality c ops p :
  OpAdd p ∉ ops →
  Operator (Pred p) = operators.NotEquals →
  (inequality (run ops (newStringEqualityMatcher c)) !! Ident (Pred p) = None ∨
   is_Some (pathBuckets (inequality (run ops (newStringEqualityMatcher c)))
              (Ident (Pred p)) !! hash (LiteralAsString (Pred p)))) →
  Remove (run ops (newStringEqualityMatcher c)) p =
    (run ops (newStringEqualityMatcher c), Some ErrExpressionPartNotFound).
Proof.
  intros Hnever Hop Hcase. apply Remove_inequality_absent; [done|].
  destruct Hcase as [Hnone | [coll (m & Hm & Hk)%lookup_pathBuckets]]; [by left|].
  right. exists m, coll. split_and!; [done..|].
  intros Hin. destruct (storedFrom_run c ops) as [_ Hneq].
  destruct (Hneq _ _ _ _ _ Hm Hk Hin) as (q & Hq & ->%ToStored_inj). done.
Qed.

(** Add, remove, remove again: the first removal succeeds and the second
    does not find the part, for both operators, when the part was not in
    its bucket before. *)
Lemma Remove_twice n p :
  Operator (Pred p) = operators.Equals ∨ Operator (Pred p) = operators.NotEquals →
  ToStored p ∉ targetBucket n p →
  ∃ n1, Remove (Add n p).1 p = (n1, None) ∧
        Remove n1 p = (n1, Some ErrExpressionPartNotFound).
Proof.
  intros [Hop | Hop] Hfresh; unfold targetBucket in Hfresh.
  - rewrite bool_decide_eq_true_2 in Hfresh by done.
    rewrite Add_equality by done.
    unfold Remove at 1. rewrite bool_decide_eq_true_2 by done. simpl.
    rewrite lookup_insert_eq, splice_snoc_fresh by done.
    eexists; split; [done|].
    apply Remove_equality_absent; [done|]. simpl.
    unfold bucket at 1. by rewrite lookup_insert_eq.
  - rewrite bool_decide_eq_false_2 in Hfresh by (rewrite Hop; done).
    rewrite Add_inequality by done.
    unfold Remove at 1. rewrite bool_decide_eq_false_2 by (rewrite Hop; done).
    rewrite bool_decide_eq_true_2 by done. simpl.
    rewrite !lookup_insert_eq, splice_snoc_fresh by done.
    eexists; split; [done|].
    apply Remove_inequality_absent; [done|]. simpl. right.
    eexists _, _. rewrite !lookup_insert_eq. split_and!; [done..|].
    unfold bucket, pathBuckets in Hfresh. done.
Qed.

End Removal.

(** ** Add and Remove: the specified properties *)

(** C5. [Remove] is asymmetric between the operators: for an inequality
    part whose field path has an entry in the inequality index but whose
    literal's hash has no bucket there, it returns nil and leaves the
    engine as it was; for an equality part whose literal's hash has no
    bucket in the equality index, it returns [ErrExpressionPartNotFound]. *)
Theorem Remove_absent_bucket_asymmetry
    (n : stringLookup) (p q : ExpressionPart)
    (m : gmap string (list StoredExpressionPart)) :
  Operator (Pred p) = operators.NotEquals →
  inequality n !! Ident (Pred p) = Some m →
  m !! hash (LiteralAsString (Pred p)) = None →
  Operator (Pred q) = operators.Equals →
  equality n !! hash (LiteralAsString (Pred q)) = None →
  Remove n p = (n, None) ∧
  Remove n q = (n, Some ErrExpressionPartNotFound).
Proof.
  intros Hp Hm Hk Hq Hb. split.
  - by eapply Remove_inequality_nil.
  - apply Remove_equality_absent; [done|].
    unfold bucket. rewrite Hb. apply not_elem_of_nil.
Qed.

Lemma Remove_absent_bucket_asymmetry_witness :
  Remove scenario.engine scenario.notPending = (scenario.engine, None) ∧
  Remove scenario.engine scenario.isPending =
    (scenario.engine, Some ErrExpressionPartNotFound).
Proof.
  apply (Remove_absent_bucket_asymmetry scenario.engine
           scenario.notPending scenario.isPending
           {[ hash "inactive" := [ToStored scenario.notInactive] ]});
    vm_compute; reflexivity.
Defined.

(** C6 fails as stated: [notPending] was never added, its field path has
    an entry in the inequality index and the hash of its literal has no
    bucket there, and [Remove] returns nil. *)
Lemma Remove_never_added_returns_nil :
  (OpAdd scenario.notPending ∉ scenario.ops) ∧
  Operator (Pred scenario.notPending) = operators.NotEquals ∧
  Remove (run scenario.ops (newStringEqualityMatcher 0)) scenario.notPending =
    (run scenario.ops (newStringEqualityMatcher 0), None).
Proof.
  split_and!.
  - unfold scenario.ops. rewrite !not_elem_of_cons. split_and!; [done..|].
    apply not_elem_of_nil.
  - reflexivity.
  - vm_compute. reflexivity.
Qed.

(** C6, as the code has it.  For a part with an equality or inequality
    operator that was never added to the engine: [Remove] returns
    [ErrExpressionPartNotFound] and leaves the engine as it was, except
    for an inequality part whose field path has an entry in the
    inequality index without a bucket for the hash of its literal, where
    [Remove] returns nil and leaves the engine as it was; and after [Add]
    of the part the first [Remove] succeeds and the second returns
    [ErrExpressionPartNotFound]. *)
Theorem Remove_never_added_except_absent_bucket
    (c : Z) (ops : list op) (n : stringLookup) (p : ExpressionPart) :
  n = run ops (newStringEqualityMatcher c) →
  OpAdd p ∉ ops →
  Operator (Pred p) = operators.Equals ∨ Operator (Pred p) = operators.NotEquals →
  (Operator (Pred p) = operators.NotEquals ∧
   is_Some (inequality n !! Ident (Pred p)) ∧
   pathBuckets (inequality n) (Ident (Pred p))
     !! hash (LiteralAsString (Pred p)) = None →
   Remove n p = (n, None)) ∧
  (¬ (Operator (Pred p) = operators.NotEquals ∧
      is_Some (inequality n !! Ident (Pred p)) ∧
      pathBuckets (inequality n) (Ident (Pred p))
        !! hash (LiteralAsString (Pred p)) = None) →
   Remove n p = (n, Some ErrExpressionPartNotFound)) ∧
  (∃ n1, Remove (Add n p).1 p = (n1, None) ∧
         Remove n1 p = (n1, Some ErrExpressionPartNotFound)).
Proof.
  intros -> Hnever Hop. split_and!.
  - intros (Hneq & [m Hm] & Hk). apply (Remove_inequality_nil _ _ m); [done..|].
    unfold pathBuckets in Hk. by rewrite Hm in Hk.
  - intros Hnot. destruct Hop as [Hop | Hop].
    + by apply Remove_never_added_equality.
    + apply Remove_never_added_inequality; [done..|].
      destruct (inequality (run ops (newStringEqualityMatcher c)) !! Ident (Pred p))
        as [m|] eqn:Hm; [|by left].
      right.
      destruct (pathBuckets (inequality (run ops (newStringEqualityMatcher c)))
                  (Ident (Pred p)) !! hash (LiteralAsString (Pred p)))
        as [coll|] eqn:Hk; [by eexists|].
      exfalso. apply Hnot. split_and!; [done | by eexists | done].
  - apply Remove_twice; [done|].
    destruct (storedFrom_run c ops) as [Heq Hneq]. unfold targetBucket.
    case_bool_decide.
    + intros (coll & Hk & Hin)%elem_of_bucket.
      destruct (Heq _ _ _ Hk Hin) as (q & Hq & ->%ToStored_inj). done.
    + intros (coll & (m & Hm & Hk)%lookup_pathBuckets & Hin)%elem_of_bucket.
      destruct (Hneq _ _ _ _ _ Hm Hk Hin) as (q & Hq & ->%ToStored_inj). done.
Qed.

Lemma Remove_never_added_except_absent_bucket_witness :
  Remove scenario.engine scenario.isPending =
    (scenario.engine, Some ErrExpressionPartNotFound).
Proof.
  destruct (Remove_never_added_except_absent_bucket 0 scenario.ops
              scenario.engine scenario.isPending) as (_ & H & _).
  - reflexivity.
  - unfold scenario.ops. rewrite !not_elem_of_cons. split_and!; [done..|].
    apply not_elem_of_nil.
  - left. reflexivity.
  - apply H. intros [Hop _]. discriminate Hop.
Defined.

(** C7, as the code has it: in every reachable state [vars] contains the
    identifier of every stored part of the equality index; [Remove] never
    takes a path out of [vars]; and after [Add] operations alone the two
    sets are equal. *)
Theorem vars_contains_equality_idents (n : stringLookup) :
  reachable n →
  equalityIdents n ⊆ vars n ∧
  (∀ p, vars (Remove n p).1 = vars n) ∧
  ((∃ c ps, n = foldl (λ n p, (Add n p).1) (newStringEqualityMatcher c) ps) →
   vars n = equalityIdents n).
Proof.
  intros Hn. split_and!.
  - by apply equalityIdents_subseteq, indexed_reachable.
  - intros p. apply Remove_vars.
  - intros (c & ps & ->). apply (anti_symm (⊆)).
    + apply vars_Add_only.
    + by apply equalityIdents_subseteq, indexed_reachable.
Qed.

Lemma vars_contains_equality_idents_witness :
  equalityIdents scenario.emptied ⊆ vars scenario.emptied.
Proof.
  apply (vars_contains_equality_idents scenario.emptied).
  exists 0, [OpAdd scenario.isActive; OpRemove scenario.isActive].
  reflexivity.
Defined.

(** C7 fails as stated: after [isActive] is added and removed, [vars]
    still holds its path and the equality index holds no part. *)
Lemma vars_not_equality_idents :
  reachable scenario.emptied ∧
  vars scenario.emptied ≠ equalityIdents scenario.emptied.
Proof.
  split.
  - exists 0, [OpAdd scenario.isActive; OpRemove scenario.isActive]. reflexivity.
  - intros Heq.
    assert (Hin : "status" ∈ equalityIdents scenario.emptied).
    { rewrite <- Heq. apply (bool_decide_unpack _). vm_compute. exact I. }
    apply elem_of_equalityIdents in Hin as (k & coll & part & Hk & Hin & _).
    assert (Hall : map_Forall (λ _ coll, coll = []) (equality scenario.emptied)).
    { apply (bool_decide_unpack _). vm_compute. exact I. }
    rewrite (Hall _ _ Hk) in Hin. by apply elem_of_nil in Hin.
Qed.

(** C8, as the code has it: when no [Add] of the sequence registers a part
    whose stored form is in its bucket at that moment, no bucket of the
    state reached holds a stored part twice. *)
Theorem buckets_NoDup_fresh_adds (c : Z) (ops : list op) :
  addsFresh ops (newStringEqualityMatcher c) = true →
  bucketsNoDup (run ops (newStringEqualityMatcher c)).
Proof.
  intros Hfresh. apply bucketsNoDup_run; [done | apply bucketsNoDup_new].
Qed.

Lemma buckets_NoDup_fresh_adds_witness : bucketsNoDup scenario.engine.
Proof.
  apply (buckets_NoDup_fresh_adds 0 scenario.ops). vm_compute. reflexivity.
Defined.

(** C8 fails as stated: [Add] has no check for a part that is already
    stored, and adding [isActive] twice leaves its stored form twice in the
    bucket of the hash of [active]. *)
Lemma bucket_holds_duplicate :
  reachable scenario.doubled ∧ ¬ bucketsNoDup scenario.doubled.
Proof.
  split.
  - exists 0, [OpAdd scenario.isActive; OpAdd scenario.isActive]. reflexivity.
  - intros [Heq _].
    assert (Hk : equality scenario.doubled !! hash "active" =
                 Some [ToStored scenario.isActive; ToStored scenario.isActive])
      by (vm_compute; reflexivity).
    apply Heq, NoDup_cons in Hk as [Hk _]. apply Hk. left.
Qed.

(** C9. [Add] and [Remove] are atomic on error.  An operator other than
    equality and inequality makes both return the unsupported-operator
    error; and whenever either returns an error, it is that error or
    [ErrExpressionPartNotFound] from [Remove], and the engine ([vars] and
    the two indexes) is as it was before the call. *)
Theorem errors_leave_engine_unchanged (n : stringLookup) (p : ExpressionPart) :
  (Operator (Pred p) ≠ operators.Equals →
   Operator (Pred p) ≠ operators.NotEquals →
   Add n p = (n, Some unsupported) ∧ Remove n p = (n, Some unsupported)) ∧
  (∀ n' e,
     Add n p = (n', Some e) ∨ Remove n p = (n', Some e) →
     (vars n' = vars n ∧ equality n' = equality n ∧ inequality n' = inequality n) ∧
     n' = n ∧
     ((e = unsupported ∧
        Operator (Pred p) ≠ operators.Equals ∧
        Operator (Pred p) ≠ operators.NotEquals)
      ∨ (e = ErrExpressionPartNotFound ∧ Remove n p = (n', Some e)))).
Proof.
  split.
  - intros H1 H2. split; [by apply Add_unsupported | by apply Remove_unsupported].
  - intros n' e [HAdd | HRemove].
    + destruct (Add_error _ _ _ _ HAdd) as (-> & -> & H1 & H2).
      split_and!; [done..|]. by left.
    + destruct (Remove_error _ _ _ _ HRemove) as (-> & [[-> _] | (-> & H1 & H2)]).
      * split_and!; [done..|]. by right.
      * split_and!; [done..|]. by left.
Qed.

Lemma errors_leave_engine_unchanged_witness :
  (Add scenario.engine scenario.lessThan = (scenario.engine, Some unsupported) ∧
   Remove scenario.engine scenario.lessThan = (scenario.engine, Some unsupported)) ∧
  vars (Remove scenario.engine scenario.isPending).1 = vars scenario.engine.
Proof.
  split.
  - apply (errors_leave_engine_unchanged scenario.engine scenario.lessThan);
      discriminate.
  - destruct (errors_leave_engine_unchanged scenario.engine scenario.isPending)
      as [_ H].
    apply (H (Remove scenario.engine scenario.isPending).1 ErrExpressionPartNotFound).
    right. vm_compute. reflexivity.
Defined.

(** ** The accumulator *)

Section Accumulator.

Implicit Types (result : MatchResult.t) (h : N * groupID).

Lemma count_app result result' h :
  MatchResult.count (result ++ result') h =
  (MatchResult.count result h + MatchResult.count result' h)%nat.
Proof.
  induction result as [|x rest IH]; simpl; [done|]. rewrite IH. lia.
Qed.

Lemma count_elem_of result h : (0 < MatchResult.count result h)%nat ↔ h ∈ result.
Proof.
  induction result as [|x rest IH]; simpl.
  - split; [lia | by intros ?%elem_of_nil].
  - rewrite elem_of_cons, <- IH. case_bool_decide as Hx.
    + subst. split; [by left | lia].
    + split; [intros ?; right; lia | intros [-> | ?]; [done | lia]].
Qed.


Lemma GroupMatches_nonneg result e g : 0 ≤ MatchResult.GroupMatches result e g.
Proof. unfold MatchResult.GroupMatches. lia. Qed.

End Accumulator.

(** ** equalitySearch and Search *)

Section EqualitySearch.

Implicit Types (n : stringLookup) (part : StoredExpressionPart).

Lemma elem_of_equalityHits variable parts part :
  part ∈ equalityHits variable parts ↔
  part ∈ parts ∧ (sIdent part = None ∨ sIdent part = Some variable).
Proof.
  unfold equalityHits. rewrite list_elem_of_filter.
  unfold identMismatch. destruct (sIdent part) as [ident|].
  - case_bool_decide; subst; simpl.
    + split; [intros [_ ?]; split; [done | by right] | intros [? _]; done].
    + split; [by intros [? _] | intros [_ [? | ?]]; congruence].
  - split; [intros [_ ?]; split; [done | by left] | intros [? _]; done].
Qed.

(** The loop records a hit for every part it does not skip, in order, and
    raises the signal when one of them has a flagged group. *)
Lemma equalityLoop_spec variable parts result opt :
  equalityLoop variable parts result opt =
    (result ++ (MatchResult.hit <$> equalityHits variable parts),
     bool_decide (Exists flagged (equalityHits variable parts)) || opt).
Proof.
  revert result opt. unfold equalityHits.
  induction parts as [|part rest IH]; intros result opt; simpl.
  - by rewrite app_nil_r.
  - rewrite filter_cons. destruct (identMismatch part variable) eqn:Hm.
    + rewrite decide_False by done. apply IH.
    + rewrite decide_True by done. rewrite IH. simpl.
      unfold MatchResult.Add. rewrite <- app_assoc. simpl. f_equal.
      destruct (decide (Flag (sGroupID part) ≠ OptimizeNone)) as [Hf|Hf].
      * rewrite (bool_decide_eq_true_2 (Flag (sGroupID part) ≠ _)) by done.
        rewrite orb_true_r. symmetry. apply orb_true_iff. left.
        apply bool_decide_eq_true. by left.
      * rewrite (bool_decide_eq_false_2 (Flag (sGroupID part) ≠ _)) by done.
        f_equal. apply bool_decide_ext. rewrite Exists_cons. tauto.
Qed.

Lemma equalitySearch_spec n variable input result :
  equalitySearch n variable input result =
    (result ++ (MatchResult.hit <$> reportedParts n variable input),
     bool_decide (Exists flagged (reportedParts n variable input))).
Proof.
  unfold equalitySearch, reportedParts. rewrite equalityLoop_spec.
  by rewrite orb_false_r.
Qed.


(** A part whose identifier is not the name searched under is not
    reported, by [equalitySearch] and so by [Search]. *)
Lemma reportedParts_ident_mismatch n variable input part ident :
  sIdent part = Some ident → ident ≠ variable →
  part ∉ reportedParts n variable input.
Proof.
  intros Hid Hne [_ [? | ?]]%elem_of_equalityHits; congruence.
Qed.

Lemma Search_ident_mismatch n variable str result :
  (∀ part, part ∈ bucket (equality n) (hash str) →
     ∃ ident, sIdent part = Some ident ∧ ident ≠ variable) →
  Search n variable (AnyString str) result = result.
Proof.
  intros Hall. simpl. rewrite equalitySearch_spec. simpl.
  destruct (reportedParts n variable str) as [|part rest] eqn:Hr;
    [by rewrite app_nil_r|].
  assert (Hin : part ∈ reportedParts n variable str) by (rewrite Hr; left).
  pose proof Hin as [Hb _]%elem_of_equalityHits.
  destruct (Hall _ Hb) as (ident & Hid & Hne).
  by destruct (reportedParts_ident_mismatch n variable str part ident).
Qed.

Lemma Search_spec n variable str result :
  Search n variable (AnyString str) result =
    result ++ (MatchResult.hit <$> reportedParts n variable str).
Proof. simpl. by rewrite equalitySearch_spec. Qed.

End EqualitySearch.

(** ** inequalitySearch *)

Section InequalitySearch.

Implicit Types (n : stringLookup) (part : StoredExpressionPart).
Implicit Types (order : list (string * list StoredExpressionPart)).

Lemma int8_small z : 0 ≤ z < 128 → int8 z = z.
Proof. intros Hz. unfold int8. rewrite Z.mod_small; lia. Qed.

Lemma inequalityExprs_app exprs exprs' result :
  inequalityExprs (exprs ++ exprs') result =
  inequalityExprs exprs' (inequalityExprs exprs result).
Proof.
  revert result. induction exprs as [|expr rest IH]; intros result; simpl; [done|].
  by destruct (_ <? _).
Qed.

Lemma inequalityVisited_cons hashedInput k coll order :
  inequalityVisited hashedInput ((k, coll) :: order) =
  if bool_decide (k = hashedInput) then inequalityVisited hashedInput order
  else coll ++ inequalityVisited hashedInput order.
Proof.
  unfold inequalityVisited. rewrite filter_cons. simpl.
  case_bool_decide.
  - by rewrite decide_False by tauto.
  - by rewrite decide_True by done.
Qed.

(** With the signal up the loop is the inner loop over the parts of the
    buckets it does not skip; with the signal down every one of these
    parts is added. *)
Lemma inequalityLoop_optimized hashedInput order result :
  inequalityLoop hashedInput true order result =
  inequalityExprs (inequalityVisited hashedInput order) result.
Proof.
  revert result. induction order as [|[k coll] rest IH]; intros result; [done|].
  rewrite inequalityVisited_cons. simpl. case_bool_decide; [done|].
  by rewrite inequalityExprs_app.
Qed.

Lemma inequalityLoop_unoptimized hashedInput order result :
  inequalityLoop hashedInput false order result =
  result ++ (MatchResult.hit <$> inequalityVisited hashedInput order).
Proof.
  revert result. induction order as [|[k coll] rest IH]; intros result.
  - simpl. by rewrite app_nil_r.
  - rewrite inequalityVisited_cons. simpl. case_bool_decide; [done|].
    rewrite IH. unfold MatchResult.AddExprs. by rewrite fmap_app, app_assoc.
Qed.

(** The whole bucket of the input's hash is skipped: the loop runs as on
    the entries without it. *)
Lemma inequalityLoop_skip hashedInput opt order result :
  inequalityLoop hashedInput opt order result =
  inequalityLoop hashedInput opt (filter (λ kv, kv.1 ≠ hashedInput) order) result.
Proof.
  revert result. induction order as [|[k coll] rest IH]; intros result; [done|].
  rewrite filter_cons. simpl. case_bool_decide as Hk.
  - rewrite decide_False by tauto. apply IH.
  - rewrite decide_True by done. simpl.
    rewrite bool_decide_eq_false_2 by done. destruct opt; simpl; apply IH.
Qed.

(** The hits the inner loop records are those of some of the parts it is
    given. *)
Lemma inequalityExprs_added exprs result :
  ∃ added, sublist added exprs ∧
    inequalityExprs exprs result = result ++ (MatchResult.hit <$> added).
Proof.
  revert result. induction exprs as [|expr rest IH]; intros result; simpl.
  - exists []. by rewrite app_nil_r.
  - destruct (_ <? _).
    + destruct (IH result) as (added & Hsub & ->).
      exists added. split; [by constructor | done].
    + destruct (IH (MatchResult.AddExprs result [expr])) as (added & Hsub & ->).
      exists (expr :: added). split; [by constructor|].
      unfold MatchResult.AddExprs. by rewrite <- app_assoc.
Qed.

Lemma inequalityLoop_added hashedInput opt order result :
  ∃ added, sublist added (inequalityVisited hashedInput order) ∧
    inequalityLoop hashedInput opt order result =
      result ++ (MatchResult.hit <$> added).
Proof.
  destruct opt.
  - rewrite inequalityLoop_optimized. apply inequalityExprs_added.
  - rewrite inequalityLoop_unoptimized. by eexists.
Qed.


Lemma elem_of_inequalityVisited hashedInput order part :
  part ∈ inequalityVisited hashedInput order ↔
  ∃ k coll, (k, coll) ∈ order ∧ k ≠ hashedInput ∧ part ∈ coll.
Proof.
  unfold inequalityVisited. rewrite list_elem_of_join. split.
  - intros (coll & Hin & Hc).
    apply list_elem_of_fmap in Hc as ([k coll'] & -> & Hkv).
    apply list_elem_of_filter in Hkv as [Hk Hkv]. by exists k, coll'.
  - intros (k & coll & Hkv & Hk & Hin). exists coll. split; [done|].
    apply list_elem_of_fmap. exists (k, coll). split; [done|].
    by apply list_elem_of_filter.
Qed.

(** In an indexed state, whatever the order of the range, the loop over
    the buckets of a path looks at no part whose literal has the hash of
    the input. *)
Lemma inequalityVisited_hash n variable input order part :
  indexed n →
  order ≡ₚ map_to_list (pathBuckets (inequality n) variable) →
  part ∈ inequalityVisited (hash input) order →
  hash (LiteralAsString (sPred part)) ≠ hash input ∧ sIdent part = Some variable.
Proof.
  intros [_ Hneq] Hperm (k & coll & Hkv & Hk & Hin)%elem_of_inequalityVisited.
  rewrite Hperm in Hkv. apply elem_of_map_to_list in Hkv.
  apply lookup_pathBuckets in Hkv as (m & Hm & Hc).
  destruct (Hneq _ _ _ _ _ Hm Hc Hin) as (<- & _ & Hid & _). done.
Qed.

End InequalitySearch.

(** ** The two phases of Match *)

Section MatchPhases.

Context {Expr : Type}.
Variable ParseString : string → Expr + error.
Variable Get : Expr → gmap string any → list any.

Implicit Types (n : stringLookup) (input : gmap string any).
Implicit Types (paths : list string) (result : MatchResult.t).
Implicit Types (orderOf : string → list (string * list StoredExpressionPart)).

Lemma int32_add_l a b : int32 (int32 a + b) = int32 (a + b).
Proof.
  unfold int32. f_equal.
  replace ((a + 2 ^ 31) mod 2 ^ 32 - 2 ^ 31 + b + 2 ^ 31)
    with ((a + 2 ^ 31) mod 2 ^ 32 + b) by lia.
  rewrite Z.add_mod_idemp_l by lia. f_equal. lia.
Qed.

Lemma int32_small z : - 2 ^ 31 ≤ z < 2 ^ 31 → int32 z = z.
Proof. intros Hz. unfold int32. rewrite Z.mod_small; lia. Qed.

(** The hits of the equality phase: those of the parts each task reports,
    path after path. *)
Lemma equalityPhase_fold n input paths st :
  (foldl (λ st path, equalityTask ParseString Get n input path st) st paths).1.2 =
  st.1.2 ++ (MatchResult.hit <$> (paths ≫= taskReported ParseString Get n input)).
Proof.
  revert st. induction paths as [|path rest IH]; intros [[err result] c]; simpl.
  - by rewrite app_nil_r.
  - rewrite IH. unfold equalityTask, taskReported at 2.
    destruct (ParseString path) as [x|e]; simpl; [|done].
    rewrite equalitySearch_spec. simpl. by rewrite fmap_app, app_assoc.
Qed.

Lemma equalityPhase_result n input paths result :
  (equalityPhase ParseString Get n input paths result).1.2 =
  result ++ (MatchResult.hit <$> (paths ≫= taskReported ParseString Get n input)).
Proof. unfold equalityPhase. by rewrite equalityPhase_fold. Qed.

(** The hits of the inequality phase: with the signal up, the inner loop
    over the parts the tasks do not skip; with the signal down, all of
    them. *)
Lemma inequalityTask_result orderOf n input c path err result :
  (inequalityTask ParseString Get orderOf n input c path (err, result)).2 =
  if bool_decide (0 < c)
  then inequalityExprs (taskVisited ParseString Get orderOf n input path) result
  else result ++ (MatchResult.hit <$> taskVisited ParseString Get orderOf n input path).
Proof.
  unfold inequalityTask, taskVisited, inequalitySearchIn.
  destruct (ParseString path) as [x|e]; simpl.
  - case_bool_decide; simpl.
    + destruct (bool_decide (0 < c)); [done | by rewrite app_nil_r].
    + destruct (bool_decide (0 < c)).
      * apply inequalityLoop_optimized.
      * apply inequalityLoop_unoptimized.
  - destruct (bool_decide (0 < c)); [done | by rewrite app_nil_r].
Qed.

Lemma inequalityPhase_fold orderOf n input c paths st :
  (foldl (λ st path, inequalityTask ParseString Get orderOf n input c path st)
     st paths).2 =
  if bool_decide (0 < c)
  then inequalityExprs (paths ≫= taskVisited ParseString Get orderOf n input) st.2
  else st.2 ++ (MatchResult.hit <$>
                  (paths ≫= taskVisited ParseString Get orderOf n input)).
Proof.
  revert st. induction paths as [|path rest IH]; intros [err result].
  - simpl. destruct (bool_decide (0 < c)); [done | by rewrite app_nil_r].
  - cbn [foldl]. rewrite IH.
    pose proof (inequalityTask_result orderOf n input c path err result) as Ht.
    destruct (inequalityTask _ _ _ _ _ _ _ _) as [err' result'].
    simpl in Ht |- *. rewrite Ht.
    destruct (bool_decide (0 < c)).
    + by rewrite inequalityExprs_app.
    + by rewrite fmap_app, app_assoc.
Qed.

Lemma inequalityPhase_result orderOf n input c paths result :
  (inequalityPhase ParseString Get orderOf n input c paths result).2 =
  if bool_decide (0 < c)
  then inequalityExprs (paths ≫= taskVisited ParseString Get orderOf n input) result
  else result ++ (MatchResult.hit <$>
                    (paths ≫= taskVisited ParseString Get orderOf n input)).
Proof. unfold inequalityPhase. by rewrite inequalityPhase_fold. Qed.

Lemma inequalityPhase_added orderOf n input c paths result :
  ∃ added,
    sublist added (paths ≫= taskVisited ParseString Get orderOf n input) ∧
    (inequalityPhase ParseString Get orderOf n input c paths result).2 =
      result ++ (MatchResult.hit <$> added).
Proof.
  rewrite inequalityPhase_result. destruct (bool_decide (0 < c)).
  - apply inequalityExprs_added.
  - by eexists.
Qed.

(** The hits of [Match]: those of the equality phase, then those of some
    of the parts the inequality phase does not skip. *)
Lemma MatchIn_added eqPaths neqPaths orderOf n input result :
  ∃ added,
    sublist added (neqPaths ≫= taskVisited ParseString Get orderOf n input) ∧
    (MatchIn ParseString Get eqPaths neqPaths orderOf n input result).2 =
      result
      ++ (MatchResult.hit <$> (eqPaths ≫= taskReported ParseString Get n input))
      ++ (MatchResult.hit <$> added).
Proof.
  unfold MatchIn.
  pose proof (equalityPhase_result n input eqPaths result) as H1.
  destruct (equalityPhase _ _ _ _ _ _) as [[err result1] c]. simpl in H1.
  destruct err as [e|]; simpl.
  - exists []. split; [apply sublist_nil_l|]. by rewrite app_nil_r.
  - destruct (inequalityPhase_added orderOf n input c neqPaths result1)
      as (added & Hsub & ->).
    exists added. split; [done|]. by rewrite H1, app_assoc.
Qed.

(** In an indexed state no task of the inequality phase looks at a part
    stored under its own path whose literal has the hash of the value of
    that path. *)
Lemma taskVisited_hash orderOf n input path part :
  indexed n →
  rangeOrder orderOf n →
  part ∈ taskVisited ParseString Get orderOf n input path →
  ∃ x, ParseString path = inl x ∧ sIdent part = Some path ∧
       hash (LiteralAsString (sPred part)) ≠ hash (fieldValue Get x input).
Proof.
  intros Hn Horder. unfold taskVisited.
  destruct (ParseString path) as [x|e]; [|by intros ?%elem_of_nil].
  case_bool_decide; [by intros ?%elem_of_nil|].
  intros Hin. exists x.
  destruct (inequalityVisited_hash n path (fieldValue Get x input) _ part
              Hn (Horder path) Hin) as [? ?].
  done.
Qed.

(** The state of the equality phase besides the hits: the error is the
    first one of a path that does not parse, and the counter has counted,
    as an int32, the tasks that raised the signal. *)
Lemma equalityPhase_fold_error n input paths st :
  (∀ path, path ∈ paths → ∃ x, ParseString path = inl x) →
  (foldl (λ st path, equalityTask ParseString Get n input path st) st paths).1.1 =
  st.1.1.
Proof.
  revert st. induction paths as [|path rest IH]; intros [[err result] c] Hparse;
    [done|].
  cbn [foldl]. rewrite IH.
  - unfold equalityTask. destruct (Hparse path) as [x ->]; [left|].
    by destruct (equalitySearch _ _ _ _).
  - intros path' Hin. apply Hparse. by right.
Qed.

Lemma equalityPhase_fold_counter n input paths st :
  int32 (foldl (λ st path, equalityTask ParseString Get n input path st) st paths).2 =
  int32 (st.2 + Z.of_nat (length (filter (λ path, taskFlagged ParseString Get n input path = true) paths))).
Proof.
  revert st. induction paths as [|path rest IH]; intros [[err result] c].
  - simpl. apply (f_equal int32). lia.
  - cbn [foldl]. rewrite IH, filter_cons.
    assert (Hc : (equalityTask ParseString Get n input path (err, result, c)).2 =
                 if taskFlagged ParseString Get n input path
                 then int32 (c + 1) else c).
    { unfold equalityTask, taskFlagged, taskReported.
      destruct (ParseString path) as [x|e]; simpl.
      - by rewrite equalitySearch_spec.
      - done. }
    rewrite Hc. destruct (taskFlagged ParseString Get n input path).
    + rewrite decide_True by done. rewrite int32_add_l.
      apply (f_equal int32). simpl. lia.
    + by rewrite decide_False by done.
Qed.

Lemma int32_range z : - 2 ^ 31 ≤ int32 z < 2 ^ 31.
Proof.
  unfold int32. pose proof (Z.mod_pos_bound (z + 2 ^ 31) (2 ^ 32)). lia.
Qed.

Lemma equalityPhase_fold_range n input paths st :
  - 2 ^ 31 ≤ st.2 < 2 ^ 31 →
  - 2 ^ 31 ≤
    (foldl (λ st path, equalityTask ParseString Get n input path st) st paths).2
    < 2 ^ 31.
Proof.
  revert st. induction paths as [|path rest IH]; intros [[err result] c] Hc;
    [done|].
  cbn [foldl]. apply IH. unfold equalityTask.
  destruct (ParseString path) as [x|e]; [|done].
  destruct (equalitySearch _ _ _ _) as [result' []]; [|done].
  apply int32_range.
Qed.


(** [Match] when every path of [vars] parses: the inequality phase runs on
    the hits of the equality phase with its counter. *)
Lemma MatchIn_parsed eqPaths neqPaths orderOf n input result :
  (∀ path, path ∈ eqPaths → ∃ x, ParseString path = inl x) →
  MatchIn ParseString Get eqPaths neqPaths orderOf n input result =
  inequalityPhase ParseString Get orderOf n input
    (equalityPhase ParseString Get n input eqPaths result).2 neqPaths
    (result ++ (MatchResult.hit <$>
                  (eqPaths ≫= taskReported ParseString Get n input))).
Proof.
  intros Hparse. unfold MatchIn.
  pose proof (equalityPhase_result n input eqPaths result) as H1.
  pose proof (equalityPhase_fold_error n input eqPaths (None, result, 0) Hparse) as H2.
  fold (equalityPhase ParseString Get n input eqPaths result) in H2.
  destruct (equalityPhase _ _ _ _ _ _) as [[err result1] c].
  simpl in H1, H2. by subst.
Qed.

End MatchPhases.

(** ** Matching: the specified properties *)

Section MatchClaims.

Context {Expr : Type}.
Variable ParseString : string → Expr + error.
Variable Get : Expr → gmap string any → list any.

Implicit Types (n : stringLookup) (input : gmap string any).
Implicit Types (paths : list string) (result : MatchResult.t).
Implicit Types (orderOf : string → list (string * list StoredExpressionPart)).

(** The parts of the two phases come from the two indexes. *)
Lemma taskReported_equality n input path part :
  indexed n → part ∈ taskReported ParseString Get n input path →
  Operator (sPred part) = operators.Equals.
Proof.
  intros [Heq _]. unfold taskReported, reportedParts.
  destruct (ParseString path) as [x|e]; [|by intros ?%elem_of_nil].
  intros [(coll & Hk & Hin)%elem_of_bucket _]%elem_of_equalityHits.
  by destruct (Heq _ _ _ Hk Hin) as (_ & ? & _).
Qed.




(** C4. Take a part stored in the inequality index of a reachable engine
    under a path that parses, whose literal has the hash of the value the
    event has at that path.  The search of that path runs as on the
    buckets without the one of that hash; the part is not among the parts
    the inequality phase does not skip, nor among those the equality phase
    reports; and the hits of the inequality phase, and of [Match] after
    those of the equality phase, are hits of parts the inequality phase
    does not skip. *)
Theorem inequality_skips_equal_hash
    n path m k coll part x input orderOf eqPaths neqPaths c opt result :
  reachable n →
  inequality n !! path = Some m →
  m !! k = Some coll →
  part ∈ coll →
  ParseString path = inl x →
  hash (LiteralAsString (sPred part)) = hash (fieldValue Get x input) →
  rangeOrder orderOf n →
  (inequalitySearchIn (orderOf path) n path (fieldValue Get x input) opt result).1 =
    (inequalitySearchIn
       (filter (λ kv, kv.1 ≠ hash (fieldValue Get x input)) (orderOf path))
       n path (fieldValue Get x input) opt result).1 ∧
  (part ∉ neqPaths ≫= taskVisited ParseString Get orderOf n input) ∧
  (part ∉ eqPaths ≫= taskReported ParseString Get n input) ∧
  (∃ added,
     sublist added (neqPaths ≫= taskVisited ParseString Get orderOf n input) ∧
     (inequalityPhase ParseString Get orderOf n input c neqPaths result).2 =
       result ++ (MatchResult.hit <$> added)) ∧
  (∃ added,
     sublist added (neqPaths ≫= taskVisited ParseString Get orderOf n input) ∧
     (MatchIn ParseString Get eqPaths neqPaths orderOf n input result).2 =
       result
       ++ (MatchResult.hit <$> (eqPaths ≫= taskReported ParseString Get n input))
       ++ (MatchResult.hit <$> added)).
Proof.
  intros Hn%indexed_reachable Hm Hk Hin Hx Hh Horder. split_and!.
  - unfold inequalitySearchIn. case_bool_decide; [done|]. simpl.
    apply inequalityLoop_skip.
  - intros (path' & Hv & _)%list_elem_of_bind.
    apply (taskVisited_hash ParseString Get orderOf n input path' part Hn Horder)
      in Hv as (x' & Hx' & Hid & Hne).
    destruct Hn as [_ Hneq].
    destruct (Hneq _ _ _ _ _ Hm Hk Hin) as (_ & _ & Hid' & _).
    assert (path' = path) as -> by congruence.
    assert (x' = x) as -> by congruence. done.
  - intros (path' & Hr & _)%list_elem_of_bind.
    apply (taskReported_equality n input path' part Hn) in Hr.
    destruct Hn as [_ Hneq].
    destruct (Hneq _ _ _ _ _ Hm Hk Hin) as (_ & Hop & _).
    rewrite Hop in Hr. discriminate.
  - apply inequalityPhase_added.
  - apply MatchIn_added.
Qed.

(** C10. In both phases of [Match] a path whose extraction yields no
    value, or a first value that is not a string, is searched with the
    empty string: its equality task is [equalitySearch] on the empty
    string and records a hit for every part of the bucket of the hash of
    the empty string whose identifier is nil or the path, and its
    inequality task is [inequalitySearch] on the empty string, which runs
    as on the buckets without the one of that hash. *)
Theorem absent_or_non_string_field_is_empty
    n input path x orderOf err result c :
  ParseString path = inl x →
  Get x input = [] ∨ (∃ v rest, Get x input = v :: rest ∧ ∀ s, v ≠ AnyString s) →
  fieldValue Get x input = "" ∧
  equalityTask ParseString Get n input path (err, result, c) =
    (err, (equalitySearch n path "" result).1,
     if (equalitySearch n path "" result).2 then int32 (c + 1) else c) ∧
  (∀ part,
     part ∈ bucket (equality n) (hash "") →
     sIdent part = None ∨ sIdent part = Some path →
     MatchResult.hit part ∈
       (equalityTask ParseString Get n input path (err, result, c)).1.2) ∧
  inequalityTask ParseString Get orderOf n input c path (err, result) =
    (err, (inequalitySearchIn (orderOf path) n path ""
             (bool_decide (0 < c)) result).1) ∧
  (inequalityTask ParseString Get orderOf n input c path (err, result)).2 =
    (inequalitySearchIn (filter (λ kv, kv.1 ≠ hash "") (orderOf path)) n path ""
       (bool_decide (0 < c)) result).1.
Proof.
  intros Hx Hget.
  assert (Hv : fieldValue Get x input = "").
  { unfold fieldValue. destruct Hget as [-> | (v & rest & -> & Hv)]; [done|].
    destruct v; try done. by destruct (Hv s). }
  assert (Heq : equalityTask ParseString Get n input path (err, result, c) =
    (err, (equalitySearch n path "" result).1,
     if (equalitySearch n path "" result).2 then int32 (c + 1) else c)).
  { unfold equalityTask. rewrite Hx, Hv. by destruct (equalitySearch _ _ _ _). }
  assert (Hneq : inequalityTask ParseString Get orderOf n input c path (err, result) =
    (err, (inequalitySearchIn (orderOf path) n path ""
             (bool_decide (0 < c)) result).1)).
  { unfold inequalityTask. by rewrite Hx, Hv. }
  split_and!; [done | done | | done |].
  - intros part Hin Hid. rewrite Heq. simpl. rewrite equalitySearch_spec. simpl.
    apply elem_of_app. right. apply list_elem_of_fmap. exists part. split; [done|].
    by apply elem_of_equalityHits.
  - rewrite Hneq. unfold inequalitySearchIn.
    destruct (bool_decide (size _ = 0%nat)); [done|].
    simpl. apply inequalityLoop_skip.
Qed.

End MatchClaims.

(** ** Matching: the scenario *)




(** C3. The code where a part is searched under another name than its
    identifier: [isActive] is stored with the identifier [status]; a
    [Search] for its literal under that name records its hit, and under
    the name [state] records nothing, where the contract (and the comment
    of [Search]) asks for the name to be ignored. *)
Theorem Search_skips_other_identifier :
  equality scenario.engine !! hash "active" = Some [ToStored scenario.isActive] ∧
  sIdent (ToStored scenario.isActive) = Some "status" ∧
  Search scenario.engine "status" (AnyString "active") [] = [(1%N, scenario.G1)] ∧
  Search scenario.engine "state" (AnyString "active") [] = [].
Proof. split_and!; vm_compute; reflexivity. Qed.

Lemma inequality_skips_equal_hash_witness :
  ToStored scenario.notInactive ∉
    ["status"] ≫= taskVisited keypath.ParseString keypath.Get
      (λ path, map_to_list (pathBuckets (inequality scenario.engine) path))
      scenario.engine scenario.inactive.
Proof.
  destruct (inequality_skips_equal_hash keypath.ParseString keypath.Get
              scenario.engine "status"
              {[ hash "inactive" := [ToStored scenario.notInactive] ]}
              (hash "inactive") [ToStored scenario.notInactive]
              (ToStored scenario.notInactive) "status" scenario.inactive
              (λ path, map_to_list (pathBuckets (inequality scenario.engine) path))
              ["status"] ["status"] 0 false [])
    as (_ & H & _).
  - exists 0, scenario.ops. reflexivity.
  - vm_compute. reflexivity.
  - vm_compute. reflexivity.
  - left.
  - reflexivity.
  - vm_compute. reflexivity.
  - intros path. reflexivity.
  - exact H.
Defined.

Lemma absent_or_non_string_field_is_empty_witness :
  fieldValue keypath.Get "status" scenario.numeric = "" ∧
  fieldValue keypath.Get "status" (∅ : gmap string any) = "".
Proof.
  split.
  - apply (absent_or_non_string_field_is_empty keypath.ParseString keypath.Get
             scenario.emptyEngine scenario.numeric "status" "status"
             (λ path, map_to_list (pathBuckets (inequality scenario.emptyEngine) path))
             None [] 0).
    + reflexivity.
    + right. exists (AnyNumber 3), []. split; [vm_compute; reflexivity | discriminate].
  - apply (absent_or_non_string_field_is_empty keypath.ParseString keypath.Get
             scenario.emptyEngine ∅ "status" "status"
             (λ path, map_to_list (pathBuckets (inequality scenario.emptyEngine) path))
             None [] 0).
    + reflexivity.
    + left. vm_compute. reflexivity.
Defined.

(** The scenario of the specification, and the engine with predicates on
    the empty string, run through [Match]. *)
Example Match_active :
  Match keypath.ParseString keypath.Get scenario.engine scenario.active [] =
    (None, [(1%N, scenario.G1); (2%N, scenario.G2)]).
Proof. vm_compute. reflexivity. Qed.

Example Match_inactive :
  Match keypath.ParseString keypath.Get scenario.engine scenario.inactive [] =
    (None, []).
Proof. vm_compute. reflexivity. Qed.

Example Match_non_string :
  Match keypath.ParseString keypath.Get scenario.emptyEngine scenario.numeric [] =
    (None, [(7%N, scenario.G1); (2%N, scenario.G2)]).
Proof. vm_compute. reflexivity. Qed.

Example Match_signal_up :
  Match keypath.ParseString keypath.Get scenario.flaggedEngine scenario.activePro [] =
    (None, [(6%N, scenario.G3); (6%N, scenario.G3)]).
Proof. vm_compute. reflexivity. Qed.

(** [int8] wraps a count of 128 around to -128, below every flag. *)
Example int8_count_128 :
  inequalityExprs [ToStored scenario.notInactivePro]
    (replicate 128 (6%N, scenario.G3)) = replicate 128 (6%N, scenario.G3).
Proof. vm_compute. reflexivity. Qed.

(** ** The order of the ranges does not matter *)

Section Orders.

Implicit Types (result : MatchResult.t) (exprs : list StoredExpressionPart).

Lemma count_Permutation result result' h :
  result ≡ₚ result' → MatchResult.count result h = MatchResult.count result' h.
Proof.
  induction 1 as [|x l l' _ IH|x y l|l l' l'' _ IH1 _ IH2]; simpl; lia.
Qed.

Lemma sameCounts_Permutation result result' :
  result ≡ₚ result' → sameCounts result result'.
Proof. intros Hp h. by apply count_Permutation. Qed.

Lemma sameCounts_app result1 result1' result2 result2' :
  sameCounts result1 result1' → sameCounts result2 result2' →
  sameCounts (result1 ++ result2) (result1' ++ result2').
Proof. intros H1 H2 h. by rewrite !count_app, H1, H2. Qed.

(** The count of a pair after the inner loop is a function of its count
    before and of the number of parts of the pair that the loop meets. *)
Lemma inequalityExprs_count_iter exprs result e g :
  MatchResult.count (inequalityExprs exprs result) (e, g) =
  Nat.iter (MatchResult.count (MatchResult.hit <$> exprs) (e, g))
    (thresholdStep (Flag g)) (MatchResult.count result (e, g)).
Proof.
  revert result. induction exprs as [|expr rest IH]; intros result; [done|].
  rewrite fmap_cons. cbn [inequalityExprs MatchResult.count].
  unfold MatchResult.GroupMatches, MatchResult.AddExprs.
  destruct (decide (MatchResult.hit expr = (e, g))) as [Heq|Hne].
  - rewrite bool_decide_eq_true_2 by done.
    assert (He : sEvaluableID expr = e) by (by injection Heq).
    assert (Hg : sGroupID expr = g) by (by injection Heq).
    rewrite He, Hg. change (1 + ?n)%nat with (S n).
    rewrite Nat.iter_succ_r. unfold thresholdStep at 2.
    destruct (int8 _ <? int8 _); rewrite IH; [done|].
    rewrite count_app. simpl. rewrite bool_decide_eq_true_2 by done.
    by rewrite Nat.add_1_r.
  - rewrite bool_decide_eq_false_2 by done. simpl.
    destruct (int8 _ <? int8 _); rewrite IH; [done|].
    rewrite count_app. simpl. rewrite bool_decide_eq_false_2 by done.
    by rewrite Nat.add_0_r.
Qed.

Lemma inequalityExprs_sameCounts exprs exprs' result result' :
  exprs ≡ₚ exprs' → sameCounts result result' →
  sameCounts (inequalityExprs exprs result) (inequalityExprs exprs' result').
Proof.
  intros Hp Hr [e g]. rewrite !inequalityExprs_count_iter, (Hr (e, g)).
  f_equal. apply count_Permutation. by rewrite Hp.
Qed.

Lemma bind_Permutation_ext {A B} (f g : A → list B) (l l' : list A) :
  l ≡ₚ l' → (∀ x, f x ≡ₚ g x) → l ≫= f ≡ₚ l' ≫= g.
Proof.
  intros Hl Hfg. rewrite <- Hl. clear Hl l'.
  induction l as [|x l IH]; [done|]. simpl. by rewrite IH, Hfg.
Qed.

Lemma inequalityVisited_Permutation hashedInput
    (order order' : list (string * list StoredExpressionPart)) :
  order ≡ₚ order' →
  inequalityVisited hashedInput order ≡ₚ inequalityVisited hashedInput order'.
Proof. intros Hp. unfold inequalityVisited. by rewrite Hp. Qed.

End Orders.

Section MatchOrders.

Context {Expr : Type}.
Variable ParseString : string → Expr + error.
Variable Get : Expr → gmap string any → list any.

Implicit Types (n : stringLookup) (input : gmap string any).
Implicit Types (paths : list string) (result : MatchResult.t).
Implicit Types (orderOf : string → list (string * list StoredExpressionPart)).

Lemma equalityPhase_fold_None n input paths st :
  (foldl (λ st path, equalityTask ParseString Get n input path st) st paths).1.1
    = None ↔
  st.1.1 = None ∧ ∀ path, path ∈ paths → ∃ x, ParseString path = inl x.
Proof.
  revert st. induction paths as [|path rest IH]; intros [[err result] c].
  - simpl. split; [intros ->; split; [done | by intros ? ?%elem_of_nil] | by intros [? _]].
  - cbn [foldl]. rewrite IH. unfold equalityTask.
    destruct (ParseString path) as [x|e] eqn:Hx.
    + destruct (equalitySearch _ _ _ _) as [result' opt]. simpl. split.
      * intros [-> Hrest]. split; [done|].
        intros path' [->|?]%elem_of_cons; eauto.
      * intros [-> Hall]. split; [done|]. intros path' ?. apply Hall. by right.
    + simpl. split.
      * intros [Herr _]. by destruct err.
      * intros [_ Hall]. destruct (Hall path) as [x Hx']; [left|]. congruence.
Qed.

Lemma inequalityPhase_fold_None orderOf n input c paths st :
  (foldl (λ st path, inequalityTask ParseString Get orderOf n input c path st)
     st paths).1 = None ↔
  st.1 = None ∧ ∀ path, path ∈ paths → ∃ x, ParseString path = inl x.
Proof.
  revert st. induction paths as [|path rest IH]; intros [err result].
  - simpl. split; [intros ->; split; [done | by intros ? ?%elem_of_nil] | by intros [? _]].
  - cbn [foldl]. rewrite IH. unfold inequalityTask.
    destruct (ParseString path) as [x|e] eqn:Hx; simpl.
    + split.
      * intros [-> Hrest]. split; [done|].
        intros path' [->|?]%elem_of_cons; eauto.
      * intros [-> Hall]. split; [done|]. intros path' ?. apply Hall. by right.
    + split.
      * intros [Herr _]. by destruct err.
      * intros [_ Hall]. destruct (Hall path) as [x Hx']; [left|]. congruence.
Qed.

(** [Match] returns nil exactly when every path of [vars] and every path
    of the inequality index parses. *)
Lemma MatchIn_None eqPaths neqPaths orderOf n input result :
  (MatchIn ParseString Get eqPaths neqPaths orderOf n input result).1 = None ↔
  (∀ path, path ∈ eqPaths → ∃ x, ParseString path = inl x) ∧
  (∀ path, path ∈ neqPaths → ∃ x, ParseString path = inl x).
Proof.
  unfold MatchIn.
  pose proof (equalityPhase_fold_None n input eqPaths (None, result, 0)) as H1.
  fold (equalityPhase ParseString Get n input eqPaths result) in H1.
  destruct (equalityPhase _ _ _ _ _ _) as [[err result1] c]. simpl in H1.
  destruct err as [e|]; simpl.
  - split; [done|]. intros [Hall _]. by apply H1.
  - unfold inequalityPhase. rewrite inequalityPhase_fold_None. simpl.
    destruct H1 as [H1 _]. specialize (H1 eq_refl) as [_ H1]. tauto.
Qed.

(** When a path of [vars] does not parse, [Match] stops after the equality
    phase. *)
Lemma MatchIn_unparsed eqPaths neqPaths orderOf n input result :
  ¬ (∀ path, path ∈ eqPaths → ∃ x, ParseString path = inl x) →
  ∃ e,
    MatchIn ParseString Get eqPaths neqPaths orderOf n input result =
      (Some e,
       result ++ (MatchResult.hit <$>
                    (eqPaths ≫= taskReported ParseString Get n input))).
Proof.
  intros Hnot. unfold MatchIn.
  pose proof (equalityPhase_fold_None n input eqPaths (None, result, 0)) as H1.
  pose proof (equalityPhase_result ParseString Get n input eqPaths result) as H2.
  fold (equalityPhase ParseString Get n input eqPaths result) in H1.
  destruct (equalityPhase _ _ _ _ _ _) as [[err result1] c]. simpl in H1, H2.
  destruct err as [e|].
  - exists e. by rewrite H2.
  - destruct H1 as [H1 _]. by destruct (H1 eq_refl).
Qed.

Lemma equalityPhase_counter_Permutation n input paths paths' result :
  paths ≡ₚ paths' →
  (equalityPhase ParseString Get n input paths result).2 =
  (equalityPhase ParseString Get n input paths' result).2.
Proof.
  intros Hp. unfold equalityPhase.
  pose proof (equalityPhase_fold_range ParseString Get n input paths (None, result, 0)) as Hr.
  pose proof (equalityPhase_fold_range ParseString Get n input paths' (None, result, 0)) as Hr'.
  pose proof (equalityPhase_fold_counter ParseString Get n input paths (None, result, 0)) as Hc.
  pose proof (equalityPhase_fold_counter ParseString Get n input paths' (None, result, 0)) as Hc'.
  rewrite int32_small in Hc by (apply Hr; simpl; lia).
  rewrite int32_small in Hc' by (apply Hr'; simpl; lia).
  rewrite Hc, Hc'. by rewrite Hp.
Qed.

Lemma taskVisited_Permutation orderOf orderOf' n input path :
  (∀ path, orderOf path ≡ₚ orderOf' path) →
  taskVisited ParseString Get orderOf n input path ≡ₚ
  taskVisited ParseString Get orderOf' n input path.
Proof.
  intros Ho. unfold taskVisited. destruct (ParseString path); [|done].
  case_bool_decide; [done|]. by apply inequalityVisited_Permutation.
Qed.

Lemma MatchIn_sameCounts eqPaths eqPaths' neqPaths neqPaths' orderOf orderOf'
    n input result :
  eqPaths ≡ₚ eqPaths' → neqPaths ≡ₚ neqPaths' →
  (∀ path, orderOf path ≡ₚ orderOf' path) →
  sameCounts
    (MatchIn ParseString Get eqPaths neqPaths orderOf n input result).2
    (MatchIn ParseString Get eqPaths' neqPaths' orderOf' n input result).2.
Proof.
  intros He Hn Ho.
  assert (Hrep : result ++ (MatchResult.hit <$>
                              (eqPaths ≫= taskReported ParseString Get n input))
                 ≡ₚ result ++ (MatchResult.hit <$>
                              (eqPaths' ≫= taskReported ParseString Get n input)))
    by (by rewrite He).
  assert (Hvis : neqPaths ≫= taskVisited ParseString Get orderOf n input
                 ≡ₚ neqPaths' ≫= taskVisited ParseString Get orderOf' n input).
  { apply bind_Permutation_ext; [done|].
    intros path. by apply taskVisited_Permutation. }
  assert (Hdec : (∀ path, path ∈ eqPaths → ∃ x, ParseString path = inl x) ∨
                 ¬ (∀ path, path ∈ eqPaths → ∃ x, ParseString path = inl x)).
  { pose proof (equalityPhase_fold_None n input eqPaths (None, result, 0)) as H.
    destruct (foldl _ _ eqPaths).1.1 as [e|]; simpl in H.
    - right. intros Hall. destruct H as [_ H].
      specialize (H (conj eq_refl Hall)). discriminate.
    - left. destruct H as [H _]. by destruct (H eq_refl). }
  destruct Hdec as [Hall|Hnot'].
  - assert (Hall' : ∀ path, path ∈ eqPaths' → ∃ x, ParseString path = inl x)
      by (intros path Hin; apply Hall; by rewrite He).
    rewrite !MatchIn_parsed by done. rewrite !inequalityPhase_result.
    rewrite <- (equalityPhase_counter_Permutation n input eqPaths eqPaths' result He).
    destruct (bool_decide (0 < _)).
    + apply inequalityExprs_sameCounts; [done|].
      by apply sameCounts_Permutation.
    + apply sameCounts_Permutation. by rewrite Hrep, Hvis.
  - assert (Hnot'' : ¬ ∀ path, path ∈ eqPaths' → ∃ x, ParseString path = inl x).
    { intros Hall. apply Hnot'. intros path Hin. apply Hall. by rewrite <- He. }
    destruct (MatchIn_unparsed eqPaths neqPaths orderOf n input result Hnot')
      as [e ->].
    destruct (MatchIn_unparsed eqPaths' neqPaths' orderOf' n input result Hnot'')
      as [e' ->].
    simpl. by apply sameCounts_Permutation.
Qed.

End MatchOrders.

(** ** How Add and Remove change what a search finds *)

Section IndexUpdates.

Implicit Types (n : stringLookup) (p : ExpressionPart).

Lemma bucket_insert (m : variableMap) k k' coll :
  bucket (<[k := coll]> m) k' = if bool_decide (k' = k) then coll else bucket m k'.
Proof.
  unfold bucket. case_bool_decide as Hk.
  - subst. by rewrite lookup_insert_eq.
  - by rewrite lookup_insert_ne.
Qed.

Lemma pathBuckets_insert (i : inequalityMap) path path' m :
  pathBuckets (<[path := m]> i) path' =
  if bool_decide (path' = path) then m else pathBuckets i path'.
Proof.
  unfold pathBuckets. case_bool_decide as Hk.
  - subst. by rewrite lookup_insert_eq.
  - by rewrite lookup_insert_ne.
Qed.

Lemma bucket_equality_Add n p k :
  bucket (equality (Add n p).1) k =
  bucket (equality n) k ++
  if bool_decide (Operator (Pred p) = operators.Equals ∧
                  k = hash (LiteralAsString (Pred p)))
  then [ToStored p] else [].
Proof.
  destruct (Add_cases n p) as [Hop | [Hop | Herr]].
  - rewrite Add_equality by done. simpl. rewrite bucket_insert.
    case_bool_decide as Hk.
    + subst. by rewrite bool_decide_eq_true_2.
    + rewrite bool_decide_eq_false_2 by tauto. by rewrite app_nil_r.
  - rewrite Add_inequality by done. simpl.
    rewrite bool_decide_eq_false_2; [by rewrite app_nil_r|].
    rewrite Hop. by intros [? _].
  - rewrite Herr. simpl.
    destruct (Add_error _ _ _ _ Herr) as (_ & _ & Hne & _).
    rewrite bool_decide_eq_false_2 by tauto. by rewrite app_nil_r.
Qed.

Lemma splice_sublist p coll coll' :
  splice p coll = Some coll' → sublist coll' coll ∧ coll ≡ₚ ToStored p :: coll'.
Proof.
  intros (l1 & l2 & -> & -> & _)%splice_Some. split.
  - apply sublist_app; [done|]. by apply sublist_cons.
  - by rewrite Permutation_middle.
Qed.

Lemma bucket_equality_Remove n p k :
  sublist (bucket (equality (Remove n p).1) k) (bucket (equality n) k).
Proof.
  destruct (Remove_cases n p)
    as [-> | [(coll & coll' & Hop & Hc & Hs & ->)
            | (m & coll & coll' & Hop & Hm & Hc & Hs & ->)]]; [done| |done].
  simpl. rewrite bucket_insert. case_bool_decide as Hk; [|done].
  subst. unfold bucket. rewrite Hc. simpl. by apply splice_sublist in Hs as [? _].
Qed.

Lemma splice_snoc p coll :
  ∃ coll', splice p (coll ++ [ToStored p]) = Some coll' ∧
           coll' ≡ₚ coll ∧ (ToStored p ∉ coll → coll' = coll).
Proof.
  induction coll as [|eval rest (coll' & Hs & Hp & Hf)]; simpl.
  - exists []. unfold EqualsStored. by rewrite bool_decide_eq_true_2.
  - unfold EqualsStored. case_bool_decide as Heq.
    + exists (rest ++ [ToStored p]). split_and!; [done | |].
      * rewrite <- Heq. by rewrite <- Permutation_cons_append.
      * intros Hn. exfalso. apply Hn. rewrite Heq. left.
    + rewrite Hs. exists (eval :: coll'). split_and!; [done | by rewrite Hp |].
      intros Hn. apply not_elem_of_cons in Hn as [_ Hn]. by rewrite Hf.
Qed.

Lemma equalityHits_sublist variable (coll coll' : list StoredExpressionPart) :
  sublist coll' coll →
  sublist (equalityHits variable coll') (equalityHits variable coll).
Proof.
  unfold equalityHits. induction 1 as [|x l1 l2 _ IH|x l1 l2 _ IH].
  - done.
  - rewrite !filter_cons. destruct (decide _); [by constructor | done].
  - rewrite filter_cons. destruct (decide _); [by constructor | done].
Qed.

Lemma fmap_sublist {A B} (f : A → B) (l l' : list A) :
  sublist l' l → sublist (f <$> l') (f <$> l).
Proof. induction 1; simpl; by constructor. Qed.

End IndexUpdates.

(** ** Further properties of the engine *)

Section EngineProperties.

Implicit Types (n : stringLookup) (p : ExpressionPart).
Implicit Types (result : MatchResult.t).

(** X1. Insert, then look up: after [Add] of an equality part, [Search]
    under its identifier for its literal records what it recorded before
    and then the hit of the part. *)
Theorem Add_then_Search_finds n p result :
  Operator (Pred p) = operators.Equals →
  Search (Add n p).1 (Ident (Pred p)) (AnyString (LiteralAsString (Pred p))) result =
  Search n (Ident (Pred p)) (AnyString (LiteralAsString (Pred p))) result
    ++ [(EvaluableID p, GroupID p)].
Proof.
  intros Hop. rewrite !Search_spec. unfold reportedParts.
  rewrite bucket_equality_Add, bool_decide_eq_true_2 by done.
  unfold equalityHits. rewrite filter_app, fmap_app, app_assoc. f_equal.
  rewrite filter_cons, decide_True; [done|].
  unfold identMismatch. simpl. by rewrite bool_decide_eq_true_2.
Qed.

Lemma Add_then_Search_finds_witness :
  Search (Add scenario.engine scenario.isPending).1 "status"
    (AnyString "pending") [] = [(3%N, scenario.G1)].
Proof.
  apply (Add_then_Search_finds scenario.engine scenario.isPending []).
  reflexivity.
Defined.

(** X2. [Add] leaves every other lookup alone: unless the part is an
    equality part, the input a string with the hash of its literal and
    the name searched its identifier, [Search] records after [Add] what
    it recorded before.  No inequality part is ever found by [Search]. *)
Theorem Add_leaves_other_searches n p variable input result :
  ¬ (Operator (Pred p) = operators.Equals ∧
     variable = Ident (Pred p) ∧
     ∃ str, input = AnyString str ∧ hash str = hash (LiteralAsString (Pred p))) →
  Search (Add n p).1 variable input result = Search n variable input result.
Proof.
  intros Hnot. destruct input as [| | |str| |]; try done.
  rewrite !Search_spec. unfold reportedParts. rewrite bucket_equality_Add.
  case_bool_decide as Hk; [|by rewrite app_nil_r].
  destruct Hk as [Hop Hk]. unfold equalityHits.
  rewrite filter_app, filter_cons, decide_False; [by rewrite app_nil_r|].
  unfold identMismatch. simpl. case_bool_decide as Hid; [|by simpl].
  exfalso. apply Hnot. eauto.
Qed.

Lemma Add_leaves_other_searches_witness :
  Search (Add scenario.engine scenario.notPending).1 "status"
    (AnyString "pending") [] =
  Search scenario.engine "status" (AnyString "pending") [].
Proof.
  apply (Add_leaves_other_searches scenario.engine scenario.notPending).
  intros [Hop _]. discriminate Hop.
Defined.

(** X3. Add, then remove: for an equality or inequality part the removal
    succeeds, every bucket of the two indexes holds the parts it held
    before [Add] (in the same order when the part was not stored
    already), every [Search] records what it did before, and [vars] has
    lost nothing. *)
Theorem Add_Remove_round_trip n p :
  Operator (Pred p) = operators.Equals ∨ Operator (Pred p) = operators.NotEquals →
  ∃ n',
    Remove (Add n p).1 p = (n', None) ∧
    (∀ k, bucket (equality n') k ≡ₚ bucket (equality n) k) ∧
    (∀ path k, bucket (pathBuckets (inequality n') path) k ≡ₚ
               bucket (pathBuckets (inequality n) path) k) ∧
    vars n ⊆ vars n' ∧
    (ToStored p ∉ targetBucket n p →
     (∀ k, bucket (equality n') k = bucket (equality n) k) ∧
     (∀ path k, bucket (pathBuckets (inequality n') path) k =
                bucket (pathBuckets (inequality n) path) k) ∧
     (∀ variable input result,
        Search n' variable input result = Search n variable input result)).
Proof.
  intros [Hop | Hop]; unfold targetBucket.
  - rewrite bool_decide_eq_true_2 by done. rewrite Add_equality by done.
    unfold Remove. rewrite bool_decide_eq_true_2 by done. simpl.
    rewrite lookup_insert_eq.
    destruct (splice_snoc p (bucket (equality n) (hash (LiteralAsString (Pred p)))))
      as (coll' & -> & Hp & Hf).
    eexists. split; [done|]. simpl. rewrite insert_insert_eq.
    assert (Hb : ∀ k, bucket (<[hash (LiteralAsString (Pred p)) := coll']> (equality n)) k
                      ≡ₚ bucket (equality n) k).
    { intros k. rewrite bucket_insert. case_bool_decide; by subst. }
    split_and!; [done | done | apply union_subseteq_r |].
    intros Hn. rewrite (Hf Hn).
    assert (Hb' : ∀ k, bucket (<[hash (LiteralAsString (Pred p)) :=
                            bucket (equality n) (hash (LiteralAsString (Pred p)))]>
                          (equality n)) k = bucket (equality n) k).
    { intros k. rewrite bucket_insert. case_bool_decide; by subst. }
    split_and!; [done | done |].
    intros variable [| | |str| |] result; try done.
    rewrite !Search_spec. unfold reportedParts. simpl. by rewrite Hb'.
  - rewrite bool_decide_eq_false_2 by (rewrite Hop; done).
    rewrite Add_inequality by done.
    unfold Remove. rewrite bool_decide_eq_false_2 by (rewrite Hop; done).
    rewrite bool_decide_eq_true_2 by done. simpl.
    rewrite !lookup_insert_eq.
    destruct (splice_snoc p
                (bucket (pathBuckets (inequality n) (Ident (Pred p)))
                   (hash (LiteralAsString (Pred p)))))
      as (coll' & -> & Hp & Hf).
    eexists. split; [done|]. simpl. rewrite !insert_insert_eq.
    assert (Hb : ∀ coll'' path k,
      bucket (pathBuckets
                (<[Ident (Pred p) := <[hash (LiteralAsString (Pred p)) := coll'']>
                     (pathBuckets (inequality n) (Ident (Pred p)))]> (inequality n))
                path) k =
      if bool_decide (path = Ident (Pred p) ∧ k = hash (LiteralAsString (Pred p)))
      then coll'' else bucket (pathBuckets (inequality n) path) k).
    { intros coll'' path k. rewrite pathBuckets_insert.
      case_bool_decide as Hpath.
      - subst. rewrite bucket_insert. case_bool_decide as Hk.
        + subst. by rewrite bool_decide_eq_true_2.
        + by rewrite bool_decide_eq_false_2 by tauto.
      - by rewrite bool_decide_eq_false_2 by tauto. }
    split_and!; [done | | done |].
    + intros path k. rewrite Hb. case_bool_decide as Hk; [|done].
      by destruct Hk as [-> ->].
    + intros Hn. rewrite (Hf Hn). split_and!; [done | | done].
      intros path k. rewrite Hb. case_bool_decide as Hk; [|done].
      by destruct Hk as [-> ->].
Qed.

Lemma Add_Remove_round_trip_witness :
  ∃ n', Remove (Add scenario.engine scenario.isPending).1 scenario.isPending =
          (n', None).
Proof.
  destruct (Add_Remove_round_trip scenario.engine scenario.isPending)
    as (n' & H & _).
  - left. reflexivity.
  - by exists n'.
Defined.

(** X4. A nil from [Remove] means that one stored copy of the part was
    taken out of its bucket, every other bucket and [vars] being left as
    they were; the one exception is the inequality part whose path has an
    entry without a bucket for its literal, where nothing changes. *)
Theorem Remove_nil_removes_one n p n' :
  Remove n p = (n', None) →
  (Operator (Pred p) = operators.NotEquals ∧
   is_Some (inequality n !! Ident (Pred p)) ∧
   pathBuckets (inequality n) (Ident (Pred p))
     !! hash (LiteralAsString (Pred p)) = None ∧
   n' = n)
  ∨ (targetBucket n p ≡ₚ ToStored p :: targetBucket n' p ∧
     sublist (targetBucket n' p) (targetBucket n p) ∧
     vars n' = vars n ∧
     (∀ k, ¬ (Operator (Pred p) = operators.Equals ∧
              k = hash (LiteralAsString (Pred p))) →
           bucket (equality n') k = bucket (equality n) k) ∧
     (∀ path k, ¬ (Operator (Pred p) = operators.NotEquals ∧
                   path = Ident (Pred p) ∧
                   k = hash (LiteralAsString (Pred p))) →
                bucket (pathBuckets (inequality n') path) k =
                bucket (pathBuckets (inequality n) path) k)).
Proof.
  unfold Remove, targetBucket.
  case_bool_decide as H1; [|case_bool_decide as H2]; [| |done].
  - destruct (equality n !! _) as [coll|] eqn:Hc; [|done].
    destruct (splice p coll) as [coll'|] eqn:Hs; [|done].
    intros [= <-]. right. simpl.
    apply splice_sublist in Hs as [Hsub Hperm].
    assert (Hold : bucket (equality n) (hash (LiteralAsString (Pred p))) = coll)
      by (unfold bucket; by rewrite Hc).
    rewrite Hold, bucket_insert, bool_decide_eq_true_2 by done.
    split_and!; [done | done | done | | done].
    intros k Hk. rewrite bucket_insert, bool_decide_eq_false_2; [done|tauto].
  - destruct (inequality n !! _) as [m|] eqn:Hm; [|done].
    destruct (m !! _) as [coll|] eqn:Hc.
    + destruct (splice p coll) as [coll'|] eqn:Hs; [|done].
      intros [= <-]. right. simpl.
      apply splice_sublist in Hs as [Hsub Hperm].
      assert (Hold : bucket (pathBuckets (inequality n) (Ident (Pred p)))
                       (hash (LiteralAsString (Pred p))) = coll)
        by (unfold bucket, pathBuckets; by rewrite Hm; simpl; rewrite Hc).
      rewrite Hold, pathBuckets_insert, bool_decide_eq_true_2 by done.
      rewrite bucket_insert, bool_decide_eq_true_2 by done.
      split_and!; [done | done | done | done |].
      intros path k Hk. rewrite pathBuckets_insert.
      case_bool_decide as Hpath; [|done]. subst.
      rewrite bucket_insert, bool_decide_eq_false_2 by tauto.
      unfold pathBuckets. by rewrite Hm.
    + intros [= <-]. left. unfold pathBuckets. rewrite Hm. simpl.
      split_and!; [done | by eexists | done | done].
Qed.

Lemma Remove_nil_removes_one_witness :
  targetBucket scenario.engine scenario.isActive ≡ₚ
  ToStored scenario.isActive ::
    targetBucket (Remove scenario.engine scenario.isActive).1 scenario.isActive.
Proof.
  destruct (Remove_nil_removes_one scenario.engine scenario.isActive
              (Remove scenario.engine scenario.isActive).1)
    as [(Hop & _) | (H & _)].
  - vm_compute. reflexivity.
  - discriminate Hop.
  - exact H.
Defined.

(** X5. What a search finds only grows with [Add] and only shrinks with
    [Remove]: after [Add] a [Search] records what it did before, in the
    same order, and possibly more; after [Remove] it records a
    subsequence of what it did before. *)
Theorem Search_grows_and_shrinks n p variable input result :
  (∃ more, Search (Add n p).1 variable input result =
           Search n variable input result ++ more) ∧
  sublist (Search (Remove n p).1 variable input result)
          (Search n variable input result).
Proof.
  destruct input as [| | |str| |];
    try (split; [exists []; by rewrite app_nil_r | done]).
  rewrite !Search_spec. unfold reportedParts. split.
  - rewrite bucket_equality_Add. unfold equalityHits.
    rewrite filter_app, fmap_app, app_assoc. by eexists.
  - apply sublist_app; [done|]. apply fmap_sublist, equalityHits_sublist.
    apply bucket_equality_Remove.
Qed.

(** X6. The signal [equalitySearch] returns: it is up exactly when the
    bucket of the input's hash holds a part that is not skipped and whose
    group has a flag other than [OptimizeNone]; what the accumulator
    holds plays no part. *)
Theorem equalitySearch_signal n variable input result :
  (equalitySearch n variable input result).2 = true ↔
  ∃ part,
    part ∈ bucket (equality n) (hash input) ∧
    (sIdent part = None ∨ sIdent part = Some variable) ∧
    Flag (sGroupID part) ≠ OptimizeNone.
Proof.
  rewrite equalitySearch_spec. simpl.
  rewrite bool_decide_eq_true, Exists_exists. unfold reportedParts, flagged.
  split.
  - intros (part & [? ?]%elem_of_equalityHits & ?). eauto.
  - intros (part & ? & ? & ?). exists part. split; [|done].
    by apply elem_of_equalityHits.
Qed.

(** X7. With the signal down, [inequalitySearch] reports every part of
    every bucket of the path whose key is not the hash of the input,
    whatever the order of the range. *)
Theorem inequalitySearch_reports_other_buckets
    n variable input result order m k coll part :
  inequality n !! variable = Some m →
  m !! k = Some coll →
  part ∈ coll →
  k ≠ hash input →
  order ≡ₚ map_to_list m →
  (sEvaluableID part, sGroupID part) ∈
    (inequalitySearchIn order n variable input false result).1.
Proof.
  intros Hm Hk Hin Hne Horder. unfold inequalitySearchIn.
  rewrite bool_decide_eq_false_2.
  - simpl. rewrite inequalityLoop_unoptimized. apply elem_of_app. right.
    apply list_elem_of_fmap. exists part. split; [done|].
    apply elem_of_inequalityVisited. exists k, coll. split_and!; [|done..].
    rewrite Horder. by apply elem_of_map_to_list.
  - unfold pathBuckets. rewrite Hm. simpl. intros Hsize.
    apply map_size_empty_iff in Hsize. subst. by rewrite lookup_empty in Hk.
Qed.

Lemma inequalitySearch_reports_other_buckets_witness :
  (2%N, scenario.G2) ∈
    (inequalitySearch scenario.engine "status" "active" false []).1.
Proof.
  apply (inequalitySearch_reports_other_buckets scenario.engine "status" "active" []
           _ {[ hash "inactive" := [ToStored scenario.notInactive] ]}
           (hash "inactive") [ToStored scenario.notInactive]
           (ToStored scenario.notInactive)).
  - vm_compute. reflexivity.
  - vm_compute. reflexivity.
  - left.
  - vm_compute. discriminate.
  - vm_compute. reflexivity.
Defined.

(** X8. The inner loop compares int8 values: a part whose pair has a
    count that is 128 to 255 modulo 256 is skipped for every flag from 0
    to 127, although the count is not below the flag. *)
Theorem int8_count_wraps_below_flag (expr : StoredExpressionPart) result :
  128 ≤ MatchResult.GroupMatches result (sEvaluableID expr) (sGroupID expr) mod 256 →
  0 ≤ Flag (sGroupID expr) < 128 →
  Flag (sGroupID expr)
    ≤ MatchResult.GroupMatches result (sEvaluableID expr) (sGroupID expr) ∧
  inequalityExprs [expr] result = result.
Proof.
  intros Hc HK.
  set (c := MatchResult.GroupMatches result (sEvaluableID expr) (sGroupID expr)) in *.
  pose proof (GroupMatches_nonneg result (sEvaluableID expr) (sGroupID expr)) as H0.
  fold c in H0.
  pose proof (Z.mod_pos_bound c 256 ltac:(lia)) as Hm.
  pose proof (Z.mod_le c 256 ltac:(lia) ltac:(lia)) as Hle.
  split; [lia|].
  cbn [inequalityExprs]. fold c.
  assert (Hi : int8 c = c mod 256 - 256).
  { unfold int8.
    rewrite <- (Z.mod_unique_pos (c + 128) 256 (c / 256 + 1) (c mod 256 - 128));
      [lia | lia |].
    pose proof (Z.div_mod c 256 ltac:(lia)). lia. }
  rewrite Hi, int8_small by lia.
  by rewrite (proj2 (Z.ltb_lt _ _)) by lia.
Qed.

Lemma int8_count_wraps_below_flag_witness :
  inequalityExprs [ToStored scenario.notInactivePro]
    (replicate 128 (6%N, scenario.G3)) = replicate 128 (6%N, scenario.G3).
Proof.
  apply (int8_count_wraps_below_flag (ToStored scenario.notInactivePro)
           (replicate 128 (6%N, scenario.G3))).
  - vm_compute. discriminate.
  - split; vm_compute; [discriminate | reflexivity].
Defined.

End EngineProperties.

(** ** Further properties of Match *)

Section MatchProperties.

Context {Expr : Type}.
Variable ParseString : string → Expr + error.
Variable Get : Expr → gmap string any → list any.

Implicit Types (n : stringLookup) (input : gmap string any).
Implicit Types (paths : list string) (result : MatchResult.t).
Implicit Types (orderOf : string → list (string * list StoredExpressionPart)).

Lemma vars_run ops n : vars n ⊆ vars (run ops n).
Proof.
  revert n. induction ops as [|[p|p] ops IH]; intros n; simpl; [done| |].
  - etrans; [|apply IH].
    destruct (Add_cases n p) as [Hop | [Hop | ->]]; [| |done].
    + rewrite Add_equality by done. apply union_subseteq_r.
    + by rewrite Add_inequality by done.
  - etrans; [|apply IH]. by rewrite Remove_vars.
Qed.

Lemma Match_error_iff_aux n input result :
  ¬ (∀ path, path ∈ vars n → ∃ x, ParseString path = inl x) →
  ∃ e, Match ParseString Get n input result =
         (Some e,
          result ++ (MatchResult.hit <$>
                       (elements (vars n) ≫= taskReported ParseString Get n input))).
Proof.
  intros Hnot. unfold Match. apply MatchIn_unparsed.
  by setoid_rewrite elem_of_elements.
Qed.

(** X9. The order in which the three ranges of [Match] run over their
    maps does not matter: whatever the orders, [Match] returns nil or an
    error alike, and the accumulator holds every pair the same number of
    times. *)
Theorem Match_order_independent eqPaths neqPaths orderOf n input result :
  eqPaths ≡ₚ elements (vars n) →
  neqPaths ≡ₚ elements (dom (inequality n)) →
  rangeOrder orderOf n →
  sameCounts
    (MatchIn ParseString Get eqPaths neqPaths orderOf n input result).2
    (Match ParseString Get n input result).2 ∧
  ((MatchIn ParseString Get eqPaths neqPaths orderOf n input result).1 = None ↔
   (Match ParseString Get n input result).1 = None).
Proof.
  intros He Hn Ho. unfold Match. split.
  - by apply MatchIn_sameCounts.
  - rewrite !MatchIn_None. by setoid_rewrite He; setoid_rewrite Hn.
Qed.

(** X10. [Match] returns nil exactly when every path of [vars] and every
    path with an entry in the inequality index parses; when a path of
    [vars] does not parse, it returns an error with the hits of the
    equality phase and none of the inequality phase. *)
Theorem Match_error_iff n input result :
  ((Match ParseString Get n input result).1 = None ↔
   (∀ path, path ∈ vars n → ∃ x, ParseString path = inl x) ∧
   (∀ path, is_Some (inequality n !! path) → ∃ x, ParseString path = inl x)) ∧
  (¬ (∀ path, path ∈ vars n → ∃ x, ParseString path = inl x) →
   ∃ e, Match ParseString Get n input result =
          (Some e,
           result ++ (MatchResult.hit <$>
                        (elements (vars n) ≫= taskReported ParseString Get n input)))).
Proof.
  unfold Match. split.
  - rewrite MatchIn_None.
    setoid_rewrite elem_of_elements. by setoid_rewrite elem_of_dom.
  - apply Match_error_iff_aux.
Qed.

(** X11. A path that does not parse stays: once an equality part whose
    identifier does not parse has been added, [Match] returns an error in
    every state that [Add] and [Remove] lead to from there, also after
    the part has been removed, and records no hit of the inequality
    phase. *)
Theorem unparsable_path_fails_every_Match n p e ops input result :
  Operator (Pred p) = operators.Equals →
  ParseString (Ident (Pred p)) = inr e →
  ∃ e',
    Match ParseString Get (run ops (Add n p).1) input result =
      (Some e',
       result ++ (MatchResult.hit <$>
                    (elements (vars (run ops (Add n p).1))
                       ≫= taskReported ParseString Get (run ops (Add n p).1) input))).
Proof.
  intros Hop He.
  destruct (Match_error_iff_aux (run ops (Add n p).1) input result) as [e' He'];
    [|by exists e'].
  intros Hall. destruct (Hall (Ident (Pred p))) as [x Hx]; [|congruence].
  apply vars_run. rewrite Add_equality by done. simpl.
  apply elem_of_union. left. by apply elem_of_singleton.
Qed.

(** X12. [Match] only appends to the accumulator, also when it returns an
    error: what was recorded before the call is still there, in place. *)
Theorem Match_only_appends eqPaths neqPaths orderOf n input result :
  ∃ more,
    (MatchIn ParseString Get eqPaths neqPaths orderOf n input result).2 =
      result ++ more ∧
    ∀ h, (MatchResult.count result h ≤
          MatchResult.count
            (MatchIn ParseString Get eqPaths neqPaths orderOf n input result).2 h)%nat.
Proof.
  destruct (MatchIn_added ParseString Get eqPaths neqPaths orderOf n input result)
    as (added & _ & ->).
  eexists. split; [done|]. intros h. rewrite count_app. lia.
Qed.

End MatchProperties.

Lemma Match_order_independent_witness :
  sameCounts
    (MatchIn keypath.ParseString keypath.Get
       (reverse (elements (vars scenario2.wideEngine)))
       (reverse (elements (dom (inequality scenario2.wideEngine))))
       (λ path, reverse (map_to_list
                           (pathBuckets (inequality scenario2.wideEngine) path)))
       scenario2.wideEngine scenario.activePro []).2
    (Match keypath.ParseString keypath.Get
       scenario2.wideEngine scenario.activePro []).2.
Proof.
  apply (Match_order_independent keypath.ParseString keypath.Get).
  - apply reverse_Permutation.
  - apply reverse_Permutation.
  - intros path. apply reverse_Permutation.
Defined.

Lemma Match_error_iff_witness :
  (Match keypath.ParseString keypath.Get scenario.engine scenario.active []).1
    = None.
Proof.
  apply (Match_error_iff keypath.ParseString keypath.Get
           scenario.engine scenario.active []).
  split; intros path _; by exists path.
Defined.

Lemma unparsable_path_fails_every_Match_witness :
  ∃ e',
    (Match strictpath.ParseString keypath.Get
       (run [OpRemove scenario2.unclosed] (Add scenario.engine scenario2.unclosed).1)
       scenario.active []).1 = Some e'.
Proof.
  destruct (unparsable_path_fails_every_Match strictpath.ParseString keypath.Get
              scenario.engine scenario2.unclosed
              (PathError "unterminated bracket")
              [OpRemove scenario2.unclosed] scenario.active [])
    as [e' He'].
  - reflexivity.
  - reflexivity.
  - exists e'. by rewrite He'.
Defined.

Example Match_wide_orders :
  Match keypath.ParseString keypath.Get scenario2.wideEngine scenario.activePro [] =
    (None, [(1%N, scenario.G1); (6%N, scenario.G3); (6%N, scenario.G3);
            (4%N, scenario.G2); (6%N, scenario.G3)]) ∧
  MatchIn keypath.ParseString keypath.Get
    (reverse (elements (vars scenario2.wideEngine)))
    (reverse (elements (dom (inequality scenario2.wideEngine))))
    (λ path, reverse (map_to_list
                        (pathBuckets (inequality scenario2.wideEngine) path)))
    scenario2.wideEngine scenario.activePro [] =
    (None, [(6%N, scenario.G3); (1%N, scenario.G1); (6%N, scenario.G3);
            (4%N, scenario.G2); (6%N, scenario.G3)]).
Proof. split; vm_compute; reflexivity. Qed.

(** ** The keys of the buckets *)

Section HashKeys.

Lemma digit_index d : 0 ≤ d < 36 → digitIndex (strconv.digit d) strconv.digits = d.
Proof.
  intros Hd. rewrite <- (Z2Nat.id d) by lia.
  assert (Hn : (Z.to_nat d < 36)%nat) by lia.
  generalize dependent (Z.to_nat d). intros k Hk.
  do 36 (destruct k as [|k]; [vm_compute; reflexivity|]). lia.
Qed.

Lemma digit_inj d d' :
  0 ≤ d < 36 → 0 ≤ d' < 36 → strconv.digit d = strconv.digit d' → d = d'.
Proof.
  intros Hd Hd' Heq.
  rewrite <- (digit_index d), <- (digit_index d') by done. by rewrite Heq.
Qed.

Lemma formatBits_length_ge fuel u base a :
  (String.length a ≤ String.length (strconv.formatBits fuel u base a))%nat.
Proof.
  revert u a. induction fuel as [|fuel IH]; intros u a; simpl; [done|].
  destruct (base <=? u); simpl; [|lia].
  etrans; [|apply IH]. simpl. lia.
Qed.

Lemma formatBits_length_gt fuel u base a :
  (String.length a < String.length (strconv.formatBits (S fuel) u base a))%nat.
Proof.
  simpl. destruct (base <=? u); simpl; [|lia].
  eapply Nat.lt_le_trans; [|apply formatBits_length_ge]. simpl. lia.
Qed.

Lemma formatBits_length_le fuel (k : nat) u base a :
  2 ≤ base → 0 ≤ u < base ^ Z.of_nat k → (1 ≤ k)%nat →
  (String.length (strconv.formatBits fuel u base a) ≤ k + String.length a)%nat.
Proof.
  intros Hbase. revert k u a.
  induction fuel as [|fuel IH]; intros k u a Hu Hk; simpl; [lia|].
  destruct (base <=? u) eqn:Hle; simpl; [|lia].
  apply Z.leb_le in Hle.
  destruct k as [|[|k]]; [lia | simpl in Hu; lia |].
  etrans; [apply (IH (S k))|simpl; lia]; [|lia].
  split; [apply Z.div_pos; lia|].
  apply Z.div_lt_upper_bound; [lia|].
  replace (Z.of_nat (S (S k))) with (Z.succ (Z.of_nat (S k))) in Hu by lia.
  rewrite Z.pow_succ_r in Hu by lia. lia.
Qed.

Lemma formatBits_inj fuel u u' base a a' :
  2 ≤ base ≤ 36 →
  0 ≤ u < 2 ^ Z.of_nat fuel → 0 ≤ u' < 2 ^ Z.of_nat fuel →
  String.length a = String.length a' →
  strconv.formatBits fuel u base a = strconv.formatBits fuel u' base a' →
  u = u' ∧ a = a'.
Proof.
  intros Hbase. revert u u' a a'.
  induction fuel as [|fuel IH]; intros u u' a a' Hu Hu' Hlen Heq.
  - simpl in *. split; [lia | done].
  - assert (Hpow : 2 ^ Z.of_nat (S fuel) = 2 * 2 ^ Z.of_nat fuel).
    { replace (Z.of_nat (S fuel)) with (Z.succ (Z.of_nat fuel)) by lia.
      apply Z.pow_succ_r. lia. }
    assert (Hdiv : ∀ v, 0 ≤ v < 2 ^ Z.of_nat (S fuel) → base ≤ v →
                        1 ≤ v / base < 2 ^ Z.of_nat fuel).
    { intros v Hv Hle. split.
      - apply Z.div_le_lower_bound; lia.
      - apply Z.div_lt_upper_bound; [lia|]. nia. }
    assert (Hshort : ∀ v w b b',
              0 ≤ v < 2 ^ Z.of_nat (S fuel) → base ≤ v →
              String.length b = String.length b' →
              strconv.formatBits fuel (v / base) base
                (String (strconv.digit (v mod base)) b)
              ≠ String (strconv.digit w) b').
    { intros v w b b' Hv Hle Hb Habs.
      destruct (Hdiv v Hv Hle) as [H1 H2].
      destruct fuel as [|fuel']; [simpl in H2; lia|].
      pose proof (formatBits_length_gt fuel' (v / base) base
                    (String (strconv.digit (v mod base)) b)) as Hgt.
      rewrite Habs in Hgt. simpl in Hgt. lia. }
    simpl in Heq.
    destruct (base <=? u) eqn:Hle; destruct (base <=? u') eqn:Hle'.
    + apply Z.leb_le in Hle, Hle'.
      pose proof (Hdiv u Hu Hle) as Hdu. pose proof (Hdiv u' Hu' Hle') as Hdu'.
      apply IH in Heq as [Hq Hs]; [| lia | lia | simpl; lia].
      injection Hs as Hd ->. split; [|done].
      apply digit_inj in Hd;
        [| pose proof (Z.mod_pos_bound u base); lia
         | pose proof (Z.mod_pos_bound u' base); lia].
      rewrite (Z.div_mod u base), (Z.div_mod u' base) by lia. by rewrite Hq, Hd.
    + apply Z.leb_le in Hle. by apply Hshort in Heq.
    + apply Z.leb_le in Hle'. symmetry in Heq. by apply Hshort in Heq.
    + apply Z.leb_gt in Hle, Hle'. injection Heq as Hd ->. split; [|done].
      apply digit_inj in Hd; lia.
Qed.

(** X13. The base-36 rendering loses nothing: two strings have the same
    bucket key exactly when their 64-bit digests are equal. *)
Theorem hash_eq_iff_digest_eq (a b : string) :
  hash a = hash b ↔ xxhash.Sum64String a = xxhash.Sum64String b.
Proof.
  split; [|unfold hash; by intros ->].
  unfold hash, strconv.FormatUint. intros Heq.
  apply (formatBits_inj 64) in Heq as [Heq _]; [done | lia | | | done].
  - pose proof (Sum64String_range a). simpl. lia.
  - pose proof (Sum64String_range b). simpl. lia.
Qed.

(** X14. A bucket key is short whatever the length of the string hashed:
    from 1 to 13 characters. *)
Theorem hash_length (input : string) :
  (1 ≤ String.length (hash input) ≤ 13)%nat.
Proof.
  unfold hash, strconv.FormatUint. split.
  - pose proof (formatBits_length_gt 63 (xxhash.Sum64String input) 36 "") as H.
    simpl String.length in H at 1. lia.
  - pose proof (formatBits_length_le 64 13 (xxhash.Sum64String input) 36 "") as H.
    simpl String.length in H at 2. apply H; [lia | | lia].
    pose proof (Sum64String_range input). simpl. lia.
Qed.

End HashKeys.

(** ** Package headers *)

Section Headers.

Context {Request Written : Type}.

Implicit Types (h : http.Header) (w : headers.ResponseWriter Written).
Implicit Types (next : headers.Handler Request Written) (r : Request).

Lemma canonical_SDK :
  textproto.CanonicalMIMEHeaderKey headers.HeaderKeySDK = "X-Inngest-Sdk".
Proof. vm_compute. reflexivity. Qed.

Lemma canonical_ServerKind :
  textproto.CanonicalMIMEHeaderKey headers.HeaderKeyServerKind =
    "X-Inngest-Server-Kind".
Proof. vm_compute. reflexivity. Qed.

Lemma canonical_ContentType :
  textproto.CanonicalMIMEHeaderKey "Content-Type" = "Content-Type".
Proof. vm_compute. reflexivity. Qed.

Lemma Get_Set_eq h key value : http.Get (http.Set_ h key value) key = value.
Proof. unfold http.Get, http.Set_. by rewrite lookup_insert_eq. Qed.

Lemma Get_Set_ne h key key' value :
  textproto.CanonicalMIMEHeaderKey key ≠ textproto.CanonicalMIMEHeaderKey key' →
  http.Get (http.Set_ h key value) key' = http.Get h key'.
Proof. intros Hne. unfold http.Get, http.Set_. by rewrite lookup_insert_ne. Qed.

(** X15. [IsSDK] reads the key [X-Inngest-Sdk], the canonical form of
    [HeaderKeySDK]: it holds exactly when the map has a non-empty first
    value there, so that after the header is set to a value it holds
    exactly when the value is not empty, and a value stored under the
    spelling [X-Inngest-SDK] alone is not seen. *)
Theorem IsSDK_reads_canonical_key h :
  (headers.IsSDK h = true ↔
   ∃ v rest, h !! "X-Inngest-Sdk" = Some (v :: rest) ∧ v ≠ "") ∧
  (∀ value, headers.IsSDK (http.Set_ h headers.HeaderKeySDK value) = true ↔
            value ≠ "") ∧
  (∀ values, headers.IsSDK (<["X-Inngest-SDK" := values]> h) = headers.IsSDK h).
Proof.
  assert (Hiff : ∀ h', headers.IsSDK h' = true ↔
                   ∃ v rest, h' !! "X-Inngest-Sdk" = Some (v :: rest) ∧ v ≠ "").
  { intros h'. unfold headers.IsSDK, http.Get. rewrite canonical_SDK.
    rewrite negb_true_iff, bool_decide_eq_false.
    destruct (h' !! "X-Inngest-Sdk") as [[|v rest]|].
    - split; [done | by intros (? & ? & ? & ?)].
    - split; [eauto | by intros (? & ? & [= <- <-] & ?)].
    - split; [done | by intros (? & ? & ? & ?)]. }
  split_and!.
  - apply Hiff.
  - intros value. unfold headers.IsSDK. rewrite Get_Set_eq.
    by rewrite negb_true_iff, bool_decide_eq_false.
  - intros values. unfold headers.IsSDK, http.Get. rewrite canonical_SDK.
    by rewrite lookup_insert_ne.
Qed.

(** X16. The two middlewares compose in either order to the same
    handler: [next] is served the writer whose header map has the server
    kind and the JSON content type set, each as the only value of its
    key, and nothing is done after [next] returns.  An empty server kind
    panics when the middleware is built. *)
Theorem middlewares_compose (serverKind : string) next w r :
  serverKind ≠ "" →
  headers.StaticHeadersMiddleware (Request := Request) (Written := Written) ""
    = None ∧
  ∃ mw,
    headers.StaticHeadersMiddleware serverKind = Some mw ∧
    mw (headers.ContentTypeJsonResponse next) w r =
      next {| headers.Header :=
                <["Content-Type" := ["application/json"]]>
                  (<["X-Inngest-Server-Kind" := [serverKind]]> (headers.Header w));
              headers.written := headers.written w |} r ∧
    headers.ContentTypeJsonResponse (mw next) w r =
      mw (headers.ContentTypeJsonResponse next) w r.
Proof.
  intros Hkind. split; [done|].
  unfold headers.StaticHeadersMiddleware.
  rewrite bool_decide_eq_false_2 by done.
  eexists. split; [done|].
  unfold headers.ContentTypeJsonResponse, headers.setHeader, http.Set_. simpl.
  rewrite canonical_ServerKind, canonical_ContentType.
  split; [done|]. f_equal. f_equal. by apply insert_insert_ne.
Qed.

(** X17. What [next] reads behind [StaticHeadersMiddleware]: the server
    kind under its key, whatever the map held there, and under every key
    with another canonical form what the map held before; the rest of the
    writer and [IsSDK] of the map are unchanged. *)
Theorem StaticHeadersMiddleware_sets_one_key (serverKind : string) mw next w r :
  headers.StaticHeadersMiddleware serverKind = Some mw →
  serverKind ≠ "" ∧
  ∃ w',
    mw next w r = next w' r ∧
    headers.written w' = headers.written w ∧
    http.Get (headers.Header w') headers.HeaderKeyServerKind = serverKind ∧
    (∀ key,
       textproto.CanonicalMIMEHeaderKey key ≠ "X-Inngest-Server-Kind" →
       http.Get (headers.Header w') key = http.Get (headers.Header w) key) ∧
    headers.IsSDK (headers.Header w') = headers.IsSDK (headers.Header w).
Proof.
  unfold headers.StaticHeadersMiddleware. case_bool_decide as Hkind; [done|].
  intros [= <-]. split; [done|].
  exists (headers.setHeader w headers.HeaderKeyServerKind serverKind).
  split_and!; [done | done | apply Get_Set_eq | |].
  - intros key Hkey. simpl. apply Get_Set_ne. by rewrite canonical_ServerKind.
  - unfold headers.IsSDK. simpl. rewrite Get_Set_ne; [done|].
    by rewrite canonical_ServerKind, canonical_SDK.
Qed.

End Headers.

Lemma middlewares_compose_witness :
  ∃ mw,
    headers.StaticHeadersMiddleware (Request := unit) (Written := unit)
      headers.ServerKindDev = Some mw ∧
    http.Get
      (headers.Header
         (mw (headers.ContentTypeJsonResponse (λ w _, w))
            (headers.mkResponseWriter ∅ ()) ()))
      headers.HeaderKeyServerKind = "dev".
Proof.
  destruct (middlewares_compose (Request := unit) (Written := unit)
              headers.ServerKindDev (λ w _, w)
              (headers.mkResponseWriter ∅ ()) ())
    as (_ & mw & Hmw & Hserved & _).
  - discriminate.
  - exists mw. split; [done|]. rewrite Hserved. vm_compute. reflexivity.
Defined.

Lemma StaticHeadersMiddleware_sets_one_key_witness :
  headers.ServerKindCloud ≠ "".
Proof.
  apply (StaticHeadersMiddleware_sets_one_key (Request := unit) (Written := unit)
           headers.ServerKindCloud
           (λ next w r, next (headers.setHeader w headers.HeaderKeyServerKind
                                headers.ServerKindCloud) r)
           (λ w _, w) (headers.mkResponseWriter ∅ ()) ()).
  reflexivity.
Defined.

Example canonical_keys :
  textproto.CanonicalMIMEHeaderKey headers.HeaderEventIDSeed =
    "X-Inngest-Event-Id-Seed" ∧
  textproto.CanonicalMIMEHeaderKey "content-type" = "Content-Type" ∧
  textproto.CanonicalMIMEHeaderKey "a b" = "a b".
Proof. split_and!; vm_compute; reflexivity. Qed.
